(** * Limb rigging tool (limbRiggingTool.py): the rig builder and its host

    The tool drives Maya through [maya.cmds]: every statement of
    [RigTheLimb], [CreateFKForJnt] and [CreateIkControl] is one host
    command.  The embedding keeps that shape: the three methods are programs
    over a signature of host commands ([Cmd]), written statement by
    statement, and a handler gives the commands their meaning on a scene.
    Two handlers are used: an arbitrary one (error propagation and the use
    of the selection do not depend on what the host does) and [maya], a
    model of the scene graph (nodes, parents, world positions, attributes,
    constraints, expressions).

    Maya computes with binary64 floats; the embedding has real numbers in
    their place, that is finite values and exact arithmetic.  [MVector] is
    the vector of [maya.OpenMaya] with its operations read that way; what
    [Vec.length] and [Vec.normalize] return is not the subject of any
    statement below.

    The methods of the trim sheet builder (TrimSheetUVBuilder.py) are
    embedded the same way, in the module [TrimSheet], and run against any
    host. *)

From Stdlib Require Import Reals Lra ZArith.
From stdpp Require Import base option list strings pretty gmap fin_maps.

(** ** MVector *)

Record MVector := mkMVector { vx : R; vy : R; vz : R }.

Module Vec.
Local Open Scope R_scope.

Definition zero : MVector := mkMVector 0 0 0.
Definition add (a b : MVector) : MVector :=
  mkMVector (vx a + vx b) (vy a + vy b) (vz a + vz b).
Definition sub (a b : MVector) : MVector :=
  mkMVector (vx a - vx b) (vy a - vy b) (vz a - vz b).
(* MVector * float *)
Definition mul (a : MVector) (k : R) : MVector :=
  mkMVector (vx a * k) (vy a * k) (vz a * k).
(* MVector / float *)
Definition div (a : MVector) (k : R) : MVector :=
  mkMVector (vx a / k) (vy a / k) (vz a / k).
Definition length (a : MVector) : R :=
  sqrt (vx a * vx a + vy a * vy a + vz a * vz a).
(* MVector.normalize(): scales the vector to unit length.  What Maya does
   to a vector of length zero is not in the sources; here it is left as it
   is, and no statement depends on that. *)
Definition normalize (a : MVector) : MVector :=
  match Req_dec_T (length a) 0 with
  | left _ => a
  | right _ => div a (length a)
  end.
End Vec.

Infix "+v" := Vec.add (at level 50, left associativity).
Infix "-v" := Vec.sub (at level 50, left associativity).
Infix "*v" := Vec.mul (at level 40, left associativity).
Infix "/v" := Vec.div (at level 40, left associativity).

(** ** Host commands *)

(** An attribute of a node, written [node.attr] in the source. *)
Definition Plug : Type := string * string.

(** The right-hand sides of the expression strings the tool builds:
    [T=S] and [T=1-S]. *)
Inductive Formula :=
| Same (src : Plug)
| OneMinus (src : Plug).

Record Expression := mkExpression { target : Plug; formula : Formula }.

Inductive Error :=
| IndexError                      (* list index out of range *)
| TypeError                       (* subscript of None *)
| SceneGraphError (what : string) (* a maya.cmds / mel call failed *).

(** The commands of [maya.cmds] (and the [curve] command sent through
    [mel.eval]) with the flags the tool passes; the index is the type of
    the value the tool reads from the call. *)
Inductive Cmd : Type → Type :=
| ls_sl : Cmd (list string)
| circle (n : string) (r : R) (nr : MVector) : Cmd unit
| curve (d : Z) (n : string) (p : list MVector) (k : list Z) : Cmd unit
| spaceLocator (n : string) : Cmd unit
| group (members : list string) (n : string) : Cmd unit
| parent (child newParent : string) : Cmd unit
| matchTransform (node tgt : string) : Cmd unit
| move (x y z : R) (node : string) : Cmd unit
| scale_r (x y z : R) (node : string) : Cmd unit
| makeIdentity_apply (node : string) : Cmd unit
| xform_q_t_ws (node : string) : Cmd MVector
| orientConstraint (driver driven : string) : Cmd unit
| poleVectorConstraint (driver handle : string) : Cmd unit
| ikHandle (n sj ee sol : string) : Cmd unit
| getAttr_poleVector (handle : string) : Cmd MVector
| setAttr (p : Plug) (v : R) : Cmd unit
| addAttr (node ln : string) (k : bool) (min max : R) : Cmd unit
| expression (s : Expression) : Cmd unit
| listConnections_s (node type : string) : Cmd (option (list string)).

(** ** Programs *)

(** The statements of a method: [return], [raise], a host call followed by
    the rest of the method, and Python's
    [try: body / except Exception as e: handler] followed by the rest of the
    method. *)
Inductive Prog (A : Type) : Type :=
| Ret (a : A)
| Raise (e : Error)
| Call {X : Type} (c : Cmd X) (k : X → Prog A)
| Try {X : Type} (body : Prog X) (handler : Error → Prog X) (k : X → Prog A).
Arguments Ret {A} a.
Arguments Raise {A} e.
Arguments Call {A X} c k.
Arguments Try {A X} body handler k.

Fixpoint bind {A B} (p : Prog A) (f : A → Prog B) : Prog B :=
  match p with
  | Ret a => f a
  | Raise e => Raise e
  | Call c k => Call c (fun x => bind (k x) f)
  | Try body handler k => Try body handler (fun x => bind (k x) f)
  end.

(** The method has no [try] statement, whatever the host answers. *)
Fixpoint try_free {A} (p : Prog A) : Prop :=
  match p with
  | Ret _ | Raise _ => True
  | Call _ k => ∀ x, try_free (k x)
  | Try _ _ _ => False
  end.

Definition mc {X} (c : Cmd X) : Prog X := Call c Ret.

#[global] Instance prog_ret : MRet Prog := @Ret.
#[global] Instance prog_bind : MBind Prog := fun A B f p => bind p f.

(** [l[i]] on a Python list. *)
Definition subscript {A} (l : list A) (i : nat) : Prog A :=
  match l !! i with
  | Some a => Ret a
  | None => Raise IndexError
  end.

(** [r[0]] where [r] is a list or [None]. *)
Definition subscript0_opt {A} (r : option (list A)) : Prog A :=
  match r with
  | None => Raise TypeError
  | Some l => subscript l 0
  end.

(** ** The tool *)

Record LimbRiggerWidget := { controllerSize : Z }.

Section Tool.
Local Open Scope R_scope.
Variable self : LimbRiggerWidget.

Definition CreateFKForJnt (jnt : string) : Prog (string * string) :=
  let fkCtrlName := "ac_fk_" +:+ jnt in
  let fkCtrlGrpName := fkCtrlName +:+ "_grp" in
  mc (circle fkCtrlName (IZR (controllerSize self)) (mkMVector 1 0 0)) ;;
  mc (group [fkCtrlName] fkCtrlGrpName) ;;
  mc (matchTransform fkCtrlGrpName jnt) ;;
  mc (orientConstraint fkCtrlName jnt) ;;
  Ret (fkCtrlName, fkCtrlGrpName).

Definition boxPoints : list MVector :=
  [ mkMVector (-0.5) 0.5 0.5; mkMVector 0.5 0.5 0.5;
    mkMVector 0.5 0.5 (-0.5); mkMVector (-0.5) 0.5 (-0.5);
    mkMVector (-0.5) 0.5 0.5; mkMVector (-0.5) (-0.5) 0.5;
    mkMVector (-0.5) (-0.5) (-0.5); mkMVector (-0.5) 0.5 (-0.5);
    mkMVector (-0.5) (-0.5) (-0.5); mkMVector 0.5 (-0.5) (-0.5);
    mkMVector 0.5 (-0.5) 0.5; mkMVector (-0.5) (-0.5) 0.5;
    mkMVector (-0.5) (-0.5) (-0.5); mkMVector 0.5 (-0.5) (-0.5);
    mkMVector 0.5 (-0.5) 0.5; mkMVector 0.5 0.5 0.5;
    mkMVector 0.5 0.5 (-0.5); mkMVector 0.5 (-0.5) (-0.5);
    mkMVector 0.5 (-0.5) 0.5; mkMVector (-0.5) (-0.5) 0.5;
    mkMVector (-0.5) 0.5 0.5; mkMVector 0.5 0.5 0.5 ].

Definition arrowPoints : list MVector :=
  [ mkMVector (-1) 1 0; mkMVector (-1) 3 0; mkMVector 1 3 0;
    mkMVector 1 1 0; mkMVector 3 1 0; mkMVector 3 (-1) 0;
    mkMVector 1 (-1) 0; mkMVector 1 (-3) 0; mkMVector (-1) (-3) 0;
    mkMVector (-1) (-1) 0; mkMVector (-3) (-1) 0; mkMVector (-3) 1 0;
    mkMVector (-1) 1 0 ].

(* -k 0 -k 1 ... -k (n-1) *)
Definition knots (n : nat) : list Z := Z.of_nat <$> seq 0 n.

Definition CreateIkControl (rootJnt midJnt endJnt : string)
  : Prog (string * string * string * string * string) :=
  let ikEndCtrlName := "ac_ik_" +:+ endJnt in
  mc (curve 1 ikEndCtrlName boxPoints (knots 22)) ;;
  mc (scale_r (IZR (controllerSize self)) (IZR (controllerSize self))
              (IZR (controllerSize self)) ikEndCtrlName) ;;
  mc (makeIdentity_apply ikEndCtrlName) ;;
  let ikEndCtrlGrpName := ikEndCtrlName +:+ "_grp" in
  mc (group [ikEndCtrlName] ikEndCtrlGrpName) ;;
  mc (matchTransform ikEndCtrlGrpName endJnt) ;;
  mc (orientConstraint ikEndCtrlName endJnt) ;;
  let ikHandleName := "ikHandle_" +:+ endJnt in
  mc (ikHandle ikHandleName rootJnt endJnt "ikRPsolver") ;;
  rootJntPosVals ← mc (xform_q_t_ws rootJnt);
  let rootJntPos :=
    mkMVector (vx rootJntPosVals) (vy rootJntPosVals) (vz rootJntPosVals) in
  endJntPosVals ← mc (xform_q_t_ws endJnt);
  let endJntPos :=
    mkMVector (vx endJntPosVals) (vy endJntPosVals) (vz endJntPosVals) in
  poleVectorVals ← mc (getAttr_poleVector ikHandleName);
  let poleVector :=
    mkMVector (vx poleVectorVals) (vy poleVectorVals) (vz poleVectorVals) in
  let poleVector := Vec.normalize poleVector in
  let vectorToEnd := endJntPos -v rootJntPos in
  let LimbDirOffset := vectorToEnd /v 2 in
  let poleVectorDirOffset := poleVector *v Vec.length LimbDirOffset in
  let midIkCtrlPos := rootJntPos +v LimbDirOffset +v poleVectorDirOffset in
  let midIkCtrlName := "ac_ik_" +:+ midJnt in
  mc (spaceLocator midIkCtrlName) ;;
  let midIkCtrlGrpName := midIkCtrlName +:+ "_grp" in
  mc (group [midIkCtrlName] midIkCtrlGrpName) ;;
  mc (move (vx midIkCtrlPos) (vy midIkCtrlPos) (vz midIkCtrlPos)
           midIkCtrlGrpName) ;;
  mc (parent ikHandleName ikEndCtrlName) ;;
  mc (poleVectorConstraint midIkCtrlName ikHandleName) ;;
  mc (setAttr (ikHandleName, "v") 0) ;;
  Ret (ikEndCtrlName, ikEndCtrlGrpName, midIkCtrlName, midIkCtrlGrpName,
       ikHandleName).

(** The statements of [RigTheLimb] after the three subscripts. *)
Definition rigJoints (rootJnt midJnt endJnt : string) : Prog unit :=
  '(rootFKCtrl, rootFKCtrlGrp) ← CreateFKForJnt rootJnt;
  '(midFKCtrl, midFKCtrlGrp) ← CreateFKForJnt midJnt;
  '(endFKCtrl, endFKCtrlGrp) ← CreateFKForJnt endJnt;
  mc (parent midFKCtrlGrp rootFKCtrl) ;;
  mc (parent endFKCtrlGrp midFKCtrl) ;;
  '(ikEndCtrlName, ikEndCtrlGrpName, midIkCtrlName, midIkCtrlGrpName,
    ikHandleName) ← CreateIkControl rootJnt midJnt endJnt;
  let ikfkBlendCtrlName := "ac_ikfk_blend_" +:+ rootJnt in
  mc (curve 1 ikfkBlendCtrlName arrowPoints (knots 13)) ;;
  let ikfkBlendCtrlGrpName := ikfkBlendCtrlName +:+ "_grp" in
  mc (group [ikfkBlendCtrlName] ikfkBlendCtrlGrpName) ;;
  rootJntPosVals ← mc (xform_q_t_ws rootJnt);
  let rootJntPos :=
    mkMVector (vx rootJntPosVals) (vy rootJntPosVals) (vz rootJntPosVals) in
  let ikfkBlendCtrlPos := rootJntPos +v mkMVector (vx rootJntPos) 0 0 in
  mc (move (vx ikfkBlendCtrlPos) (vy ikfkBlendCtrlPos) (vz ikfkBlendCtrlPos)
           ikfkBlendCtrlGrpName) ;;
  let ikfkBlendAttrName := "ikfk_blend" in
  mc (addAttr ikfkBlendCtrlName ikfkBlendAttrName true 0 1) ;;
  let blend := (ikfkBlendCtrlName, ikfkBlendAttrName) in
  mc (expression (mkExpression (rootFKCtrlGrp, "v") (OneMinus blend))) ;;
  mc (expression (mkExpression (ikEndCtrlGrpName, "v") (Same blend))) ;;
  mc (expression (mkExpression (midIkCtrlGrpName, "v") (Same blend))) ;;
  mc (expression (mkExpression (ikHandleName, "ikBlend") (Same blend))) ;;
  conns ← mc (listConnections_s endJnt "orientConstraint");
  endJntOrientConstraint ← subscript0_opt conns;
  mc (expression (mkExpression (endJntOrientConstraint, endFKCtrl +:+ "W0")
                               (OneMinus blend))) ;;
  mc (expression (mkExpression (endJntOrientConstraint, ikEndCtrlName +:+ "W1")
                               (Same blend))) ;;
  let topGrpName := rootJnt +:+ "_rig_grp" in
  mc (group [rootFKCtrlGrp; ikEndCtrlGrpName; midIkCtrlGrpName;
             ikfkBlendCtrlGrpName] topGrpName).

Definition RigTheLimb : Prog unit :=
  selection ← mc ls_sl;
  rootJnt ← subscript selection 0;
  midJnt ← subscript selection 1;
  endJnt ← subscript selection 2;
  rigJoints rootJnt midJnt endJnt.
End Tool.

(** ** Running a program against a host *)

Section Run.
Context {St : Type}.

(** A host: what each command does to the state and what it answers.
    A command that fails answers an error. *)
Definition Handler : Type := ∀ X, Cmd X → St → St * (Error + X).

Variable h : Handler.

(** Python runs the statements in order; an exception raised by a call or
    by a subscript ends the method, unless it is raised in the body of a
    [try]: then the handler runs, and the method goes on after it. *)
Fixpoint run {A} (p : Prog A) (s : St) : St * (Error + A) :=
  match p with
  | Ret a => (s, inr a)
  | Raise e => (s, inl e)
  | Call c k =>
      match h _ c s with
      | (s', inr x) => run (k x) s'
      | (s', inl e) => (s', inl e)
      end
  | Try body handler k =>
      match run body s with
      | (s', inr x) => run (k x) s'
      | (s', inl e) =>
          match run (handler e) s' with
          | (s'', inr x) => run (k x) s''
          | (s'', inl e') => (s'', inl e')
          end
      end
  end.

(** One executed host call: the command, the state before and after it,
    and the error if it failed. *)
Record Step := mkStep {
  step_cmd : { X : Type & Cmd X };
  step_pre : St;
  step_post : St;
  step_error : option Error
}.

(** The host calls a run performs, in order. *)
Fixpoint steps {A} (p : Prog A) (s : St) : list Step :=
  match p with
  | Ret _ | Raise _ => []
  | Call c k =>
      match h _ c s with
      | (s', inr x) => mkStep (existT _ c) s s' None :: steps (k x) s'
      | (s', inl e) => [mkStep (existT _ c) s s' (Some e)]
      end
  | Try body handler k =>
      steps body s ++
      match run body s with
      | (s', inr x) => steps (k x) s'
      | (s', inl e) =>
          steps (handler e) s' ++
          match run (handler e) s' with
          | (s'', inr x) => steps (k x) s''
          | (_, inl _) => []
          end
      end
  end.

(** Each call starts in the state the call before it left. *)
Fixpoint threaded (s : St) (l : list Step) : Prop :=
  match l with
  | [] => True
  | st :: l => step_pre st = s ∧ threaded (step_post st) l
  end.
End Run.

(** ** The scene graph *)

Inductive Shape :=
| Circle (r : R) (nr : MVector)
| Curve (d : Z) (p : list MVector) (k : list Z)
| Locator
| NoShape.

Inductive Node :=
| Joint
| Transform (shape : Shape)
| IkHandle (sj ee sol : string) (poleVector : MVector)
| OrientConstraint (driven : string) (drivers : list string)
| PoleVectorConstraint (driver handle : string).

(** World-space translation and rotation, and the scale, of a node. *)
Record Xform := mkXform {
  translation : MVector;
  rotation : MVector;
  scaling : MVector
}.

Record Attr := mkAttr { value : R; range : option (R * R) }.

Record Scene := mkScene {
  selected : list string;               (* the current selection *)
  nodes : gmap string Node;
  parents : gmap string string;         (* child ↦ parent *)
  xforms : gmap string Xform;
  attrs : gmap Plug Attr;               (* scalar attributes *)
  connections : gmap string (list string);
                                        (* orient constraints driving a node *)
  expressions : list Expression;        (* live expressions *)
  rpSolver : string → string → MVector  (* the pole vector the rotate-plane
                                           solver gives a new handle *)
}.

Definition set_nodes (f : gmap string Node → gmap string Node) (s : Scene) :=
  mkScene (selected s) (f (nodes s)) (parents s) (xforms s) (attrs s)
          (connections s) (expressions s) (rpSolver s).
Definition set_parents (f : gmap string string → gmap string string) (s : Scene) :=
  mkScene (selected s) (nodes s) (f (parents s)) (xforms s) (attrs s)
          (connections s) (expressions s) (rpSolver s).
Definition set_xforms (f : gmap string Xform → gmap string Xform) (s : Scene) :=
  mkScene (selected s) (nodes s) (parents s) (f (xforms s)) (attrs s)
          (connections s) (expressions s) (rpSolver s).
Definition set_attrs (f : gmap Plug Attr → gmap Plug Attr) (s : Scene) :=
  mkScene (selected s) (nodes s) (parents s) (xforms s) (f (attrs s))
          (connections s) (expressions s) (rpSolver s).
Definition set_connections
    (f : gmap string (list string) → gmap string (list string)) (s : Scene) :=
  mkScene (selected s) (nodes s) (parents s) (xforms s) (attrs s)
          (f (connections s)) (expressions s) (rpSolver s).
Definition set_expressions (f : list Expression → list Expression) (s : Scene) :=
  mkScene (selected s) (nodes s) (parents s) (xforms s) (attrs s)
          (connections s) (f (expressions s)) (rpSolver s).

Module Maya.
Local Open Scope R_scope.

Definition ok {X} (s : Scene) (x : X) : Scene * (Error + X) := (s, inr x).
Definition fail {X} (s : Scene) (what : string) : Scene * (Error + X) :=
  (s, inl (SceneGraphError what)).

Definition position (s : Scene) (n : string) : option MVector :=
  translation <$> xforms s !! n.

(** The world position of the parent of [n] (the origin at top level). *)
Definition origin_of (X : gmap string Xform) (p : option string) : MVector :=
  default Vec.zero (p ≫= fun n => translation <$> X !! n).

Definition identity_at (o : MVector) : Xform :=
  mkXform o Vec.zero (mkMVector 1 1 1).

Definition visible : Attr := mkAttr 1 None.

(** [x] lies below [g] in the hierarchy. *)
Fixpoint is_under_fuel (par : gmap string string) (fuel : nat)
    (x g : string) : bool :=
  match fuel with
  | O => false
  | S fuel =>
      match par !! x with
      | None => false
      | Some p => bool_decide (p = g) || is_under_fuel par fuel p g
      end
  end.
Definition is_under (par : gmap string string) (x g : string) : bool :=
  is_under_fuel par (S (size par)) x g.

(** A new node at top level, at the origin, visible.  A name that is in
    use is refused. *)
Definition created (n : string) (nd : Node) (s : Scene) : Scene :=
  set_nodes <[n := nd]>
    (set_xforms <[n := identity_at Vec.zero]>
    (set_attrs <[(n, "v") := visible]> s)).

Definition create (n : string) (nd : Node) (s : Scene) : Scene * (Error + unit) :=
  match nodes s !! n with
  | Some _ => fail s "name in use"
  | None => ok (created n nd s) tt
  end.

(** The parent shared by all the members, if there is one. *)
Definition common_parent (par : gmap string string) (members : list string)
    : option string :=
  match members with
  | [] => None
  | m :: ms =>
      if forallb (fun x => bool_decide (par !! x = par !! m)) ms
      then par !! m else None
  end.

Definition reparent (members : list string) (n : string)
    (par : gmap string string) : gmap string string :=
  foldr (fun m acc => <[m := n]> acc) par members.

(** The new group goes under the common parent, if any. *)
Definition under_parent (p : option string) (n : string)
    (par : gmap string string) : gmap string string :=
  match p with
  | Some p => <[n := p]> par
  | None => par
  end.

(** [group members -n n]: a new transform under the members' common parent
    (or at top level), with the members as its children. *)
Definition grouped (members : list string) (n : string) (s : Scene) : Scene :=
  let p := common_parent (parents s) members in
  set_nodes <[n := Transform NoShape]>
    (set_xforms <[n := identity_at (origin_of (xforms s) p)]>
    (set_attrs <[(n, "v") := visible]>
    (set_parents (fun par => under_parent p n (reparent members n par)) s))).

Definition do_group (members : list string) (n : string) (s : Scene)
    : Scene * (Error + unit) :=
  match nodes s !! n with
  | Some _ => fail s "name in use"
  | None =>
      if bool_decide (members ≠ []) &&
         forallb (fun m => bool_decide (is_Some (nodes s !! m))) members
      then ok (grouped members n s) tt
      else fail s "no such object"
  end.

(** [parent child newParent]; the child keeps its world position. *)
Definition do_parent (child newParent : string) (s : Scene)
    : Scene * (Error + unit) :=
  if bool_decide (is_Some (nodes s !! child)) &&
     bool_decide (is_Some (nodes s !! newParent))
  then
    if bool_decide (child = newParent) || is_under (parents s) newParent child
    then fail s "cannot parent an object to itself or to one of its children"
    else ok (set_parents <[child := newParent]> s) tt
  else fail s "no such object".

Definition shift (delta : MVector) (xf : Xform) : Xform :=
  mkXform (translation xf +v delta) (rotation xf) (scaling xf).

(** Moving a node takes everything below it along. *)
Definition shift_subtree (par : gmap string string) (g : string)
    (delta : MVector) (X : gmap string Xform) : gmap string Xform :=
  map_imap (fun m xf => Some (if is_under par m g then shift delta xf else xf)) X.

(** Put [node] at the world position [tgt] (and, for [matchTransform],
    at the world rotation [rot]). *)
Definition place (node : string) (tgt : MVector) (rot : option MVector)
    (s : Scene) : Scene * (Error + unit) :=
  match xforms s !! node with
  | None => fail s "no such object"
  | Some xf =>
      ok (set_xforms (fun X =>
            <[node := mkXform tgt (default (rotation xf) rot) (scaling xf)]>
              (shift_subtree (parents s) node (tgt -v translation xf) X)) s) tt
  end.

Definition do_matchTransform (node tgt : string) (s : Scene)
    : Scene * (Error + unit) :=
  match xforms s !! tgt with
  | None => fail s "no such object"
  | Some xt => place node (translation xt) (Some (rotation xt)) s
  end.

Definition do_scale (x y z : R) (node : string) (s : Scene)
    : Scene * (Error + unit) :=
  match xforms s !! node with
  | None => fail s "no such object"
  | Some xf =>
      let sc := scaling xf in
      ok (set_xforms
            <[node := mkXform (translation xf) (rotation xf)
                        (mkMVector (vx sc * x) (vy sc * y) (vz sc * z))]> s) tt
  end.

(** [makeIdentity -apply true]: the transform is reset and the points of a
    curve keep their place in the world (the geometry of the other shapes
    is not tracked). *)
Definition freeze (o : MVector) (xf : Xform) (sh : Shape) : Shape :=
  match sh with
  | Curve d p k =>
      let sc := scaling xf in
      Curve d ((fun q => mkMVector (vx q * vx sc) (vy q * vy sc) (vz q * vz sc)
                           +v (translation xf -v o)) <$> p) k
  | _ => sh
  end.

Definition do_makeIdentity (node : string) (s : Scene) : Scene * (Error + unit) :=
  match nodes s !! node, xforms s !! node with
  | Some (Transform sh), Some xf =>
      let o := origin_of (xforms s) (parents s !! node) in
      ok (set_nodes <[node := Transform (freeze o xf sh)]>
         (set_xforms <[node := identity_at o]> s)) tt
  | _, _ => fail s "no such transform"
  end.

Definition do_xform (node : string) (s : Scene) : Scene * (Error + MVector) :=
  match position s node with
  | Some p => ok s p
  | None => fail s "no such object"
  end.

(** The weight of the [i]-th driver of a constraint is the attribute
    [<driver>W<i>] of the constraint node. *)
Definition weightAlias (driver : string) (i : nat) : string :=
  driver +:+ "W" +:+ pretty i.

(** The orient constraint that takes a new driver for [driven]: the one
    that drives it already, with its drivers, or a new node named after
    [driven].  The boolean says whether the node is new. *)
Definition orient_slot (C : gmap string (list string)) (N : gmap string Node)
    (driven : string) : option (string * list string * bool) :=
  match C !! driven with
  | Some (c :: _) =>
      match N !! c with
      | Some (OrientConstraint _ ds) => Some (c, ds, false)
      | _ => None
      end
  | _ =>
      let c := driven +:+ "_orientConstraint1" in
      match N !! c with
      | None => Some (c, [], true)
      | Some _ => None
      end
  end.

Definition do_orientConstraint (driver driven : string) (s : Scene)
    : Scene * (Error + unit) :=
  if bool_decide (is_Some (nodes s !! driver)) &&
     bool_decide (is_Some (nodes s !! driven))
  then
    match orient_slot (connections s) (nodes s) driven with
    | Some (c, ds, new) =>
        ok (set_nodes <[c := OrientConstraint driven (ds ++ [driver])]>
           (set_attrs (fun A =>
              <[(c, weightAlias driver (length ds)) := mkAttr 1 None]>
                (if new then <[(c, "v") := visible]> A else A))
           (set_parents (fun par => if new then <[c := driven]> par else par)
           (set_connections
              (fun C => if new then <[driven := [c]]> C else C) s)))) tt
    | None => fail s "cannot constrain"
    end
  else fail s "no such object".

Definition do_poleVectorConstraint (driver handle : string) (s : Scene)
    : Scene * (Error + unit) :=
  let c := handle +:+ "_poleVectorConstraint1" in
  match nodes s !! driver, nodes s !! handle, nodes s !! c with
  | Some _, Some (IkHandle _ _ _ _), None =>
      ok (set_nodes <[c := PoleVectorConstraint driver handle]>
         (set_attrs (fun A =>
            <[(c, weightAlias driver 0) := mkAttr 1 None]>
              (<[(c, "v") := visible]> A))
         (set_parents <[c := handle]> s))) tt
  | _, _, _ => fail s "cannot constrain"
  end.

(** [ikHandle -n n -sj sj -ee ee -sol sol]: a handle at the end joint, at
    top level; the solver gives it its pole vector. *)
Definition do_ikHandle (n sj ee sol : string) (s : Scene)
    : Scene * (Error + unit) :=
  match nodes s !! n, nodes s !! sj, nodes s !! ee, xforms s !! ee with
  | None, Some Joint, Some Joint, Some xe =>
      if is_under (parents s) ee sj
      then
        ok (set_nodes <[n := IkHandle sj ee sol (rpSolver s sj ee)]>
           (set_xforms <[n := identity_at (translation xe)]>
           (set_attrs (fun A =>
              <[(n, "ikBlend") := mkAttr 1 (Some (0, 1))]>
                (<[(n, "v") := visible]> A)) s))) tt
      else fail s "the end joint is not below the start joint"
  | _, _, _, _ => fail s "cannot create the handle"
  end.

Definition do_getAttr_poleVector (handle : string) (s : Scene)
    : Scene * (Error + MVector) :=
  match nodes s !! handle with
  | Some (IkHandle _ _ _ pv) => ok s pv
  | _ => fail s "no such attribute"
  end.

Definition clamp (r : option (R * R)) (v : R) : R :=
  match r with
  | Some (lo, hi) => Rmax lo (Rmin hi v)
  | None => v
  end.

Definition driven (es : list Expression) (p : Plug) : option Expression :=
  find (fun e => bool_decide (target e = p)) es.

(** Storing a value in an attribute; a value outside the attribute's
    range is clamped. *)
Definition store (p : Plug) (v : R) (s : Scene) : Scene :=
  set_attrs (alter (fun a => mkAttr (clamp (range a) v) (range a)) p) s.

Definition do_setAttr (p : Plug) (v : R) (s : Scene) : Scene * (Error + unit) :=
  match attrs s !! p, driven (expressions s) p with
  | Some _, None => ok (store p v s) tt
  | Some _, Some _ => fail s "the attribute is connected"
  | None, _ => fail s "no such attribute"
  end.

Definition do_addAttr (node ln : string) (k : bool) (min max : R) (s : Scene)
    : Scene * (Error + unit) :=
  match nodes s !! node, attrs s !! (node, ln) with
  | Some _, None =>
      ok (set_attrs <[(node, ln) := mkAttr (clamp (Some (min, max)) 0)
                                           (Some (min, max))]> s) tt
  | Some _, Some _ => fail s "attribute name in use"
  | None, _ => fail s "no such object"
  end.

Definition source (f : Formula) : Plug :=
  match f with Same p | OneMinus p => p end.

(** [expression -s "T=..."]: both attributes must exist and the target
    must be free. *)
Definition do_expression (e : Expression) (s : Scene) : Scene * (Error + unit) :=
  match attrs s !! target e, attrs s !! source (formula e),
        driven (expressions s) (target e) with
  | Some _, Some _, None => ok (set_expressions (fun es => es ++ [e]) s) tt
  | _, _, _ => fail s "cannot create the expression"
  end.

(** [listConnections -s true -t type]: the constraints driving the node,
    [None] when there is none. *)
Definition do_listConnections (node type : string) (s : Scene)
    : Scene * (Error + option (list string)) :=
  match nodes s !! node with
  | None => fail s "no such object"
  | Some _ =>
      ok s (if bool_decide (type = "orientConstraint")
            then match connections s !! node with
                 | Some (c :: cs) => Some (c :: cs)
                 | _ => None
                 end
            else None)
  end.

Definition maya : @Handler Scene := fun X c s =>
  match c in Cmd X return Scene * (Error + X) with
  | ls_sl => ok s (selected s)
  | circle n r nr => create n (Transform (Circle r nr)) s
  | curve d n p k => create n (Transform (Curve d p k)) s
  | spaceLocator n => create n (Transform Locator) s
  | group members n => do_group members n s
  | parent child newParent => do_parent child newParent s
  | matchTransform node tgt => do_matchTransform node tgt s
  | move x y z node => place node (mkMVector x y z) None s
  | scale_r x y z node => do_scale x y z node s
  | makeIdentity_apply node => do_makeIdentity node s
  | xform_q_t_ws node => do_xform node s
  | orientConstraint driver driven => do_orientConstraint driver driven s
  | poleVectorConstraint driver handle => do_poleVectorConstraint driver handle s
  | ikHandle n sj ee sol => do_ikHandle n sj ee sol s
  | getAttr_poleVector handle => do_getAttr_poleVector handle s
  | setAttr p v => do_setAttr p v s
  | addAttr node ln k min max => do_addAttr node ln k min max s
  | expression e => do_expression e s
  | listConnections_s node type => do_listConnections node type s
  end.

(** The value the host shows for an attribute: the value of the
    expression that drives it, or the stored value. *)
Definition stored (s : Scene) (p : Plug) : option R := value <$> attrs s !! p.

Definition eval (s : Scene) (f : Formula) : option R :=
  match f with
  | Same src => stored s src
  | OneMinus src => (fun v => 1 - v) <$> stored s src
  end.

Definition attr_value (s : Scene) (p : Plug) : option R :=
  match driven (expressions s) p with
  | Some e => eval s (formula e)
  | None => stored s p
  end.
End Maya.

(** ** What a successful host call guarantees *)

Module Post.
Import Maya.
Local Open Scope R_scope.

(** For each command: the condition under which [maya] accepts it and the
    scene it leaves. *)
Definition post {X} (c : Cmd X) (s s' : Scene) : X → Prop :=
  match c in Cmd X return X → Prop with
  | ls_sl => fun r => s' = s ∧ r = selected s
  | circle n r nr => fun _ =>
      nodes s !! n = None ∧ s' = created n (Transform (Circle r nr)) s
  | curve d n p k => fun _ =>
      nodes s !! n = None ∧ s' = created n (Transform (Curve d p k)) s
  | spaceLocator n => fun _ =>
      nodes s !! n = None ∧ s' = created n (Transform Locator) s
  | group members n => fun _ =>
      nodes s !! n = None ∧ members ≠ [] ∧
      Forall (fun m => is_Some (nodes s !! m)) members ∧
      s' = grouped members n s
  | parent child newParent => fun _ =>
      is_Some (nodes s !! child) ∧ is_Some (nodes s !! newParent) ∧
      child ≠ newParent ∧ is_under (parents s) newParent child = false ∧
      s' = set_parents <[child := newParent]> s
  | matchTransform node tgt => fun _ =>
      ∃ xt xf, xforms s !! tgt = Some xt ∧ xforms s !! node = Some xf ∧
      s' = set_xforms (fun X =>
             <[node := mkXform (translation xt) (rotation xt) (scaling xf)]>
               (shift_subtree (parents s) node
                  (translation xt -v translation xf) X)) s
  | move x y z node => fun _ =>
      ∃ xf, xforms s !! node = Some xf ∧
      s' = set_xforms (fun X =>
             <[node := mkXform (mkMVector x y z) (rotation xf) (scaling xf)]>
               (shift_subtree (parents s) node
                  (mkMVector x y z -v translation xf) X)) s
  | scale_r x y z node => fun _ =>
      ∃ xf, xforms s !! node = Some xf ∧
      s' = set_xforms
             <[node := mkXform (translation xf) (rotation xf)
                         (mkMVector (vx (scaling xf) * x) (vy (scaling xf) * y)
                                    (vz (scaling xf) * z))]> s
  | makeIdentity_apply node => fun _ =>
      ∃ sh xf, nodes s !! node = Some (Transform sh) ∧
      xforms s !! node = Some xf ∧
      s' = set_nodes
             <[node := Transform
                         (freeze (origin_of (xforms s) (parents s !! node)) xf sh)]>
             (set_xforms
                <[node := identity_at (origin_of (xforms s) (parents s !! node))]> s)
  | xform_q_t_ws node => fun r => s' = s ∧ position s node = Some r
  | orientConstraint driver driven => fun _ =>
      is_Some (nodes s !! driver) ∧ is_Some (nodes s !! driven) ∧
      ∃ c ds new, orient_slot (connections s) (nodes s) driven = Some (c, ds, new) ∧
      s' = set_nodes <[c := OrientConstraint driven (ds ++ [driver])]>
           (set_attrs (fun A =>
              <[(c, weightAlias driver (length ds)) := mkAttr 1 None]>
                (if new then <[(c, "v") := visible]> A else A))
           (set_parents (fun par => if new then <[c := driven]> par else par)
           (set_connections
              (fun C => if new then <[driven := [c]]> C else C) s)))
  | poleVectorConstraint driver handle => fun _ =>
      is_Some (nodes s !! driver) ∧
      (∃ sj ee sol pv, nodes s !! handle = Some (IkHandle sj ee sol pv)) ∧
      nodes s !! (handle +:+ "_poleVectorConstraint1") = None ∧
      s' = set_nodes <[handle +:+ "_poleVectorConstraint1"
                         := PoleVectorConstraint driver handle]>
           (set_attrs (fun A =>
              <[(handle +:+ "_poleVectorConstraint1", weightAlias driver 0)
                  := mkAttr 1 None]>
                (<[(handle +:+ "_poleVectorConstraint1", "v") := visible]> A))
           (set_parents <[handle +:+ "_poleVectorConstraint1" := handle]> s))
  | ikHandle n sj ee sol => fun _ =>
      nodes s !! n = None ∧ nodes s !! sj = Some Joint ∧
      nodes s !! ee = Some Joint ∧ is_under (parents s) ee sj = true ∧
      ∃ xe, xforms s !! ee = Some xe ∧
      s' = set_nodes <[n := IkHandle sj ee sol (rpSolver s sj ee)]>
           (set_xforms <[n := identity_at (translation xe)]>
           (set_attrs (fun A =>
              <[(n, "ikBlend") := mkAttr 1 (Some (0, 1))]>
                (<[(n, "v") := visible]> A)) s))
  | getAttr_poleVector handle => fun r =>
      s' = s ∧ ∃ sj ee sol, nodes s !! handle = Some (IkHandle sj ee sol r)
  | setAttr p v => fun _ =>
      is_Some (attrs s !! p) ∧ driven (expressions s) p = None ∧ s' = store p v s
  | addAttr node ln k min max => fun _ =>
      is_Some (nodes s !! node) ∧ attrs s !! (node, ln) = None ∧
      s' = set_attrs <[(node, ln) := mkAttr (clamp (Some (min, max)) 0)
                                            (Some (min, max))]> s
  | expression e => fun _ =>
      is_Some (attrs s !! target e) ∧ is_Some (attrs s !! source (formula e)) ∧
      driven (expressions s) (target e) = None ∧
      s' = set_expressions (fun es => es ++ [e]) s
  | listConnections_s node type => fun r =>
      s' = s ∧ is_Some (nodes s !! node) ∧
      r = if bool_decide (type = "orientConstraint")
          then match connections s !! node with
               | Some (c :: cs) => Some (c :: cs)
               | _ => None
               end
          else None
  end.
End Post.

(** ** Example scenes *)

Module Example.
Import Maya.
Local Open Scope R_scope.

Definition jointAt (x y z : R) : Xform :=
  mkXform (mkMVector x y z) Vec.zero (mkMVector 1 1 1).

Definition w15 : LimbRiggerWidget := {| controllerSize := 15 |}.

(** An arm along the x axis; the solver bends it towards [pv]. *)
Definition armWith (sel : list string) (extra : list (string * Node))
    (pv : MVector) : Scene :=
  mkScene sel
    (list_to_map ([("shoulder", Joint); ("elbow", Joint); ("wrist", Joint);
                   ("hand", Joint)] ++ extra))
    (list_to_map [("elbow", "shoulder"); ("wrist", "elbow"); ("hand", "wrist")])
    (list_to_map [("shoulder", jointAt 0 0 0); ("elbow", jointAt 5 0 0);
                  ("wrist", jointAt 10 0 0); ("hand", jointAt 12 0 0)])
    (list_to_map [(("shoulder", "v"), visible); (("elbow", "v"), visible);
                  (("wrist", "v"), visible); (("hand", "v"), visible)])
    ∅ [] (fun _ _ => pv).

Definition arm : Scene :=
  armWith ["shoulder"; "elbow"; "wrist"] [] (mkMVector 0 0 1).
(** Two joints selected. *)
Definition arm2 : Scene := armWith ["shoulder"; "elbow"] [] (mkMVector 0 0 1).
(** Four joints selected. *)
Definition arm4 : Scene :=
  armWith ["shoulder"; "elbow"; "wrist"; "hand"] [] (mkMVector 0 0 1).
(** The name of the IK end control is taken. *)
Definition armClash : Scene :=
  armWith ["shoulder"; "elbow"; "wrist"] [("ac_ik_wrist", Transform Locator)]
          (mkMVector 0 0 1).
(** The joints picked from the wrist up: the end joint comes first. *)
Definition armReversed : Scene :=
  armWith ["wrist"; "elbow"; "shoulder"] [] (mkMVector 0 0 1).

(** A leg off the origin and off the axes. *)
Definition leg : Scene :=
  mkScene ["hip"; "knee"; "ankle"]
    (list_to_map [("hip", Joint); ("knee", Joint); ("ankle", Joint)])
    (list_to_map [("knee", "hip"); ("ankle", "knee")])
    (list_to_map [("hip", jointAt 3 4 5); ("knee", jointAt 3 2 6);
                  ("ankle", jointAt 3 0 5)])
    (list_to_map [(("hip", "v"), visible); (("knee", "v"), visible);
                  (("ankle", "v"), visible)])
    ∅ [] (fun _ _ => mkMVector 0 0 1).

(** For contrast with the tool, a method that guards its call:
    [try: matchTransform(node, tgt) / except Exception: pass]. *)
Definition guarded (node tgt : string) : Prog unit :=
  Try (mc (matchTransform node tgt)) (fun _ => Ret tt) Ret.
End Example.

(** ** The build, its outcome and the names it gives *)

Definition built (self : LimbRiggerWidget) (s : Scene) : Scene :=
  (run Maya.maya (RigTheLimb self) s).1.

Definition succeeds (self : LimbRiggerWidget) (s : Scene) : Prop :=
  (run Maya.maya (RigTheLimb self) s).2 = inr tt.

Module Names.
Definition fkCtrl (jnt : string) : string := "ac_fk_" +:+ jnt.
Definition ikCtrl (jnt : string) : string := "ac_ik_" +:+ jnt.
Definition grp (ctrl : string) : string := ctrl +:+ "_grp".
Definition handle (endJnt : string) : string := "ikHandle_" +:+ endJnt.
Definition blendCtrl (rootJnt : string) : string := "ac_ikfk_blend_" +:+ rootJnt.
Definition topGrp (rootJnt : string) : string := rootJnt +:+ "_rig_grp".
Definition blendAttr (rootJnt : string) : Plug := (blendCtrl rootJnt, "ikfk_blend").
(** Names the host gives to constraint nodes. *)
Definition orientNode (jnt : string) : string := jnt +:+ "_orientConstraint1".
Definition poleNode (h : string) : string := h +:+ "_poleVectorConstraint1".
End Names.

(** The parent map mentions existing nodes only. *)
Definition closed (s : Scene) : Prop :=
  map_Forall (fun x p => is_Some (nodes s !! x) ∧ is_Some (nodes s !! p))
             (parents s).

(** The animator sets the blend attribute. *)
Definition with_blend (rootJnt : string) (b : R) (s : Scene) : Scene :=
  Maya.store (Names.blendAttr rootJnt) b s.

(** ** Statements *)

(** The four branches of the rig. *)
Definition branches (r m e : string) : list string :=
  [Names.grp (Names.fkCtrl r); Names.grp (Names.ikCtrl e);
   Names.grp (Names.ikCtrl m); Names.grp (Names.blendCtrl r)].

(** The expressions the build adds, in the order of the source. *)
Definition rigExpressions (r m e : string) : list Expression :=
  let blend := Names.blendAttr r in
  [ mkExpression (Names.grp (Names.fkCtrl r), "v") (OneMinus blend);
    mkExpression (Names.grp (Names.ikCtrl e), "v") (Same blend);
    mkExpression (Names.grp (Names.ikCtrl m), "v") (Same blend);
    mkExpression (Names.handle e, "ikBlend") (Same blend);
    mkExpression (Names.orientNode e, Maya.weightAlias (Names.fkCtrl e) 0)
                 (OneMinus blend);
    mkExpression (Names.orientNode e, Maya.weightAlias (Names.ikCtrl e) 1)
                 (Same blend) ].

(** A fact that holds when the flag is set. *)
Definition when (b : bool) (P : Prop) : Prop := b = true → P.

(** The nodes of the initial scene keep their parents. *)
Definition agrees (N0 : gmap string Node) (P0 P : gmap string string) : Prop :=
  ∀ y, is_Some (N0 !! y) → P !! y = P0 !! y.

(** ** The size slider (limbRiggingTool.py) *)

(** The widget with the text of its size label ([self.sizeDisplayLabel]). *)
Record LimbRiggerUI := {
  widget : LimbRiggerWidget;
  sizeDisplayLabel : string
}.

(** [__init__]: the size is 15 and the label shows it. *)
Definition LimbRiggerUI_init : LimbRiggerUI :=
  {| widget := {| controllerSize := 15 |}; sizeDisplayLabel := pretty 15%Z |}.

(** The slot of the slider's [valueChanged]. *)
Definition ControllerSizeChanged (ui : LimbRiggerUI) (sliderVal : Z) : LimbRiggerUI :=
  {| widget := {| controllerSize := sliderVal |};
     sizeDisplayLabel := pretty sliderVal |}.

(** ** More statements *)

(** The fifteen nodes the build names after the joints: the FK controls and
    their groups, the IK control, the handle, the pole locator and their
    groups, the pole-vector constraint, the blend control and its group, and
    the rig group. *)
Definition created (r m e : string) : list string :=
  [ Names.fkCtrl r; Names.grp (Names.fkCtrl r);
    Names.fkCtrl m; Names.grp (Names.fkCtrl m);
    Names.fkCtrl e; Names.grp (Names.fkCtrl e);
    Names.ikCtrl e; Names.grp (Names.ikCtrl e); Names.handle e;
    Names.ikCtrl m; Names.grp (Names.ikCtrl m);
    Names.poleNode (Names.handle e);
    Names.blendCtrl r; Names.grp (Names.blendCtrl r); Names.topGrp r ].

(** The points of the box after [scale] by the controller size and
    [makeIdentity]. *)
Definition scaledBox (size : R) : list MVector :=
  (fun q => mkMVector (vx q * size) (vy q * size) (vz q * size))%R <$> boxPoints.


(** Every node of [s] is a node of [s']. *)
Definition nodes_stay (s s' : Scene) : Prop :=
  ∀ n, is_Some (nodes s !! n) → is_Some (nodes s' !! n).

(** The nodes of the initial scene keep their entry in a map. *)
Definition keeps {V} (N0 : gmap string Node) (M0 M : gmap string V) : Prop :=
  ∀ y, is_Some (N0 !! y) → M !! y = M0 !! y.

(** Every node but an orient constraint. *)
Definition plain (nd : Node) : Prop :=
  match nd with
  | OrientConstraint _ _ => False
  | _ => True
  end.

(** The plain nodes of the initial scene keep their entry in the map of the
    nodes, and their attributes. *)
Definition keeps_nodes (N0 N : gmap string Node) : Prop :=
  ∀ y nd, N0 !! y = Some nd → plain nd → N !! y = Some nd.
Definition keeps_attrs (N0 : gmap string Node) (A0 A : gmap Plug Attr) : Prop :=
  ∀ y nd a, N0 !! y = Some nd → plain nd → A !! (y, a) = A0 !! (y, a).

(** ** A host with nothing to tell *)


(** * Trim sheet builder (TrimSheetUVBuilder.py) *)

(** The second widget of the repository edits the UVs of a shell.  Its
    methods are programs over the host commands they call, as for the limb
    tool; the exceptions are those of the limb tool and the two more these
    methods can raise. *)

Module TrimSheet.
Local Open Scope R_scope.

Inductive Exception :=
| Builtin (e : Error)
| ZeroDivisionError               (* float division by zero *)
| AttributeError (name : string)  (* the object has no such attribute *).

(** The calls of [maya.cmds] and [mel.eval] the widget makes, with the flags
    it passes. *)
Inductive UVCmd : Type → Type :=
| ls_sl_fl : UVCmd (list string)                        (* ls(sl=True, fl=True) *)
| ls_selected : UVCmd (list string)                     (* ls(sl=True) *)
| ls_fl (items : list string) : UVCmd (list string)     (* ls(items, fl=True) *)
| polyListComponentConversion_toUV (items : list string) : UVCmd (list string)
| polyEditUV_q (uv : string) : UVCmd (list R)           (* polyEditUV(uv, q=True) *)
| polyEditUV_scale_r (items : list string) (su sv : R) : UVCmd unit
| polyEditUV_move (items : list string) (u v : R) : UVCmd unit
| select_r (items : list string) : UVCmd unit
| mel_eval (cmd : string) : UVCmd unit
| polyProjection_planar_c (items : list string) : UVCmd unit
| polyMapCut (edges : list string) : UVCmd unit
| u3dUnfold (items : list string) : UVCmd unit.

(** A call as it is recorded, whatever the type of its answer. *)
Definition sent {X : Type} (c : UVCmd X) : { X : Type & UVCmd X } := existT X c.

Inductive UVProg (A : Type) : Type :=
| Return (a : A)
| Throw (e : Exception)
| Host {X : Type} (c : UVCmd X) (k : X → UVProg A).
Arguments Return {A} a.
Arguments Throw {A} e.
Arguments Host {A X} c k.

Fixpoint uv_bind {A B} (p : UVProg A) (f : A → UVProg B) : UVProg B :=
  match p with
  | Return a => f a
  | Throw e => Throw e
  | Host c k => Host c (fun x => uv_bind (k x) f)
  end.

Definition call {X} (c : UVCmd X) : UVProg X := Host c Return.

#[global] Instance uvprog_ret : MRet UVProg := @Return.
#[global] Instance uvprog_bind : MBind UVProg := fun A B f p => uv_bind p f.

(** [l[i]] on a Python list. *)
Definition index {A} (l : list A) (i : nat) : UVProg A :=
  match l !! i with
  | Some a => Return a
  | None => Throw (Builtin IndexError)
  end.

(** [a / b] on floats: Python raises when the divisor is zero. *)
Definition divide (a b : R) : UVProg R :=
  if Req_dec_T b 0 then Throw ZeroDivisionError else Return (a / b).

(** [for x in l: body]; the loop variables are threaded through. *)
Fixpoint for_each {A B} (l : list A) (body : A → B → UVProg B) (b : B) : UVProg B :=
  match l with
  | [] => Return b
  | x :: l => b' ← body x b; for_each l body b'
  end.

(** The widget: the UV shell it works on ([self.shell]). *)
Record TrimSheetBuilderWidget := { shell : list string }.

(** [__init__]: no shell yet. *)
Definition init : TrimSheetBuilderWidget := {| shell := [] |}.

Section Methods.
Variable self : TrimSheetBuilderWidget.

Definition SelectShell : UVProg TrimSheetBuilderWidget :=
  sel ← call ls_sl_fl;
  Return {| shell := sel |}.

Definition ScaleShell (u v : R) : UVProg unit :=
  call (polyEditUV_scale_r (shell self) u v).

(** The body of the loop of [GetShellBound], on the four variables
    [(minU, maxU, minV, maxV)]: each of the four tests assigns [minU]. *)
Definition boundStep (uv : string) (b : R * R * R * R) : UVProg (R * R * R * R) :=
  let '(minU, maxU, minV, maxV) := b in
  uvCoord ← call (polyEditUV_q uv);
  c ← index uvCoord 0;
  let minU := if Rlt_dec c minU then c else minU in
  c ← index uvCoord 0;
  let minU := if Rgt_dec c maxU then c else minU in
  c ← index uvCoord 1;
  let minU := if Rlt_dec c minV then c else minU in
  c ← index uvCoord 1;
  let minU := if Rgt_dec c maxV then c else minU in
  Return (minU, maxU, minV, maxV).

Definition GetShellBound : UVProg (list R * list R) :=
  uvs ← call (polyListComponentConversion_toUV (shell self));
  uvs ← call (ls_fl uvs);
  uv0 ← index uvs 0;
  firstUV ← call (polyEditUV_q uv0);
  minU ← index firstUV 0;
  maxU ← index firstUV 0;
  minV ← index firstUV 1;
  maxV ← index firstUV 1;
  '(minU, maxU, minV, maxV) ← for_each uvs boundStep (minU, maxU, minV, maxV);
  Return ([minU; minV], [maxU; maxV]).

Definition GetShellSize : UVProg (R * R) :=
  '(min, max) ← GetShellBound;
  a ← index max 1;
  b ← index min 1;
  let height := a - b in
  a ← index max 0;
  b ← index min 0;
  let width := a - b in
  Return (width, height).

(** The class has no method [MoveToOrigin]: looking it up raises. *)
Definition FillShellToU1V1 : UVProg unit :=
  '(width, height) ← GetShellSize;
  su ← divide 1 width;
  sv ← divide 1 height;
  ScaleShell su sv ;;
  Throw (AttributeError "MoveToOrigin").

Definition MoveShell (u v : R) : UVProg unit :=
  '(width, height) ← GetShellSize;
  let uAmt := u * width in
  let vAmt := v * height in
  call (polyEditUV_move (shell self) uAmt vAmt).

Definition BackToOrigin : UVProg unit :=
  '(minCoord, maxCoord) ← GetShellBound;
  a ← index minCoord 0;
  b ← index minCoord 1;
  call (polyEditUV_move (shell self) (- a) (- b)).

Definition TurnShell : UVProg unit :=
  call (select_r (shell self)) ;;
  call (mel_eval "polyRotateUVs 90 0").

(** The widget has the attribute [shell], not [Shell]: the argument of
    [u3dUnfold] raises before the call is made. *)
Definition CutAndUnfoldShell : UVProg unit :=
  edges ← call ls_selected;
  call (polyProjection_planar_c (shell self)) ;;
  call (polyMapCut edges) ;;
  Shell ← Throw (AttributeError "Shell");
  call (u3dUnfold Shell) ;;
  call (mel_eval "textOrientShells").

Definition UnfoldShell : UVProg unit :=
  call (polyProjection_planar_c (shell self)) ;;
  call (u3dUnfold (shell self)).

(** The buttons of [CreateManipulationSection] that are wired to a lambda. *)
Definition halfUBtn : UVProg unit := ScaleShell 0.5 1.
Definition halfVBtn : UVProg unit := ScaleShell 1 0.5.
Definition doubleUBtn : UVProg unit := ScaleShell 2 1.
Definition doubleVBtn : UVProg unit := ScaleShell 1 2.
Definition moveUpBtn : UVProg unit := MoveShell 0 1.
Definition moveDownBtn : UVProg unit := MoveShell 0 (-1).
Definition moveLeftBtn : UVProg unit := MoveShell (-1) 0.
Definition moveRightBtn : UVProg unit := MoveShell 1 0.
End Methods.

(** ** Running against a host *)

Section UVRun.
Context {St : Type}.

Definition UVHandler : Type := ∀ X, UVCmd X → St → St * (Exception + X).

Variable h : UVHandler.

Fixpoint uv_run {A} (p : UVProg A) (s : St) : St * (Exception + A) :=
  match p with
  | Return a => (s, inr a)
  | Throw e => (s, inl e)
  | Host c k =>
      match h _ c s with
      | (s', inr x) => uv_run (k x) s'
      | (s', inl e) => (s', inl e)
      end
  end.

(** One executed host call. *)
Record UVStep := mkUVStep {
  uv_cmd : { X : Type & UVCmd X };
  uv_pre : St;
  uv_post : St;
  uv_error : option Exception
}.

Fixpoint uv_steps {A} (p : UVProg A) (s : St) : list UVStep :=
  match p with
  | Return _ | Throw _ => []
  | Host c k =>
      match h _ c s with
      | (s', inr x) => mkUVStep (existT _ c) s s' None :: uv_steps (k x) s'
      | (s', inl e) => [mkUVStep (existT _ c) s s' (Some e)]
      end
  end.
End UVRun.

(** The commands that change the scene; the others are queries. *)
Definition edits (c : { X : Type & UVCmd X }) : bool :=
  match projT2 c with
  | ls_sl_fl | ls_selected | ls_fl _ | polyListComponentConversion_toUV _
  | polyEditUV_q _ => false
  | _ => true
  end.

(** The two calls [CutAndUnfoldShell] makes after the cut. *)
Definition unfolds (c : { X : Type & UVCmd X }) : bool :=
  match projT2 c with
  | u3dUnfold _ | mel_eval _ => true
  | _ => false
  end.

(** A host for examples: a fixed selection and a fixed table of UV
    coordinates; the state is the list of the edits received, latest
    first. *)
Definition recorder (sel : list string) (coords : string → option (list R))
    : @UVHandler (list { X : Type & UVCmd X }) := fun X c log =>
  match c in UVCmd X return list _ * (Exception + X) with
  | ls_sl_fl => (log, inr sel)
  | ls_selected => (log, inr sel)
  | ls_fl items => (log, inr items)
  | polyListComponentConversion_toUV items => (log, inr items)
  | polyEditUV_q uv =>
      match coords uv with
      | Some c => (log, inr c)
      | None => (log, inl (Builtin (SceneGraphError "no such UV")))
      end
  | c => (existT _ c :: log, inr tt)
  end.
End TrimSheet.

(** A shell of two UVs on one row, and an edge selected. *)
Module UVExample.
Import TrimSheet.
Local Open Scope R_scope.

Definition coords (uv : string) : option (list R) :=
  if String.eqb uv "map[0]" then Some [0; 0]
  else if String.eqb uv "map[1]" then Some [1; 0]
  else None.

Definition host : @UVHandler (list { X : Type & UVCmd X }) :=
  recorder ["e[3]"] coords.

Definition pair : TrimSheetBuilderWidget := {| shell := ["map[0]"; "map[1]"] |}.
Definition swapped : TrimSheetBuilderWidget := {| shell := ["map[1]"; "map[0]"] |}.
End UVExample.


(** * Properties *)

(** ** Runs against any host *)

Section RunFacts.
Context {St : Type} (h : @Handler St).

Lemma run_Call {A X} (c : Cmd X) (k : X → Prog A) s :
  run h (Call c k) s =
  match h _ c s with
  | (s', inr x) => run h (k x) s'
  | (s', inl e) => (s', inl e)
  end.
Proof. reflexivity. Qed.

Lemma try_free_bind {A B} (p : Prog A) (f : A → Prog B) :
  try_free p → (∀ a, try_free (f a)) → try_free (bind p f).
Proof.
  revert f. induction p as [? a|? e|? X c k IH|? X body IHb handler IHh k IHk];
    intros f Hp Hf; cbn in *; auto.
Qed.

(** Each recorded step is a call the host answered, with its answer. *)
Lemma steps_call {A} (p : Prog A) s i st :
  try_free p → steps h p s !! i = Some st →
  ∃ r, h _ (projT2 (step_cmd st)) (step_pre st) = (step_post st, r) ∧
       step_error st = match r with inl e => Some e | inr _ => None end.
Proof.
  revert s i. induction p as [? a|? e'|? X c k IH|? X body IHb handler IHh k IHk];
    intros s i Hp Hi; [done..| |done].
  cbn [steps] in Hi. destruct (h X c s) as [s' [e'|x]] eqn:Hc.
  - destruct i as [|i]; [|by destruct i]. cbn in Hi. injection Hi as <-.
    exists (inl e'). cbn. auto.
  - destruct i as [|i]; cbn in Hi.
    + injection Hi as <-. exists (inr x). cbn. auto.
    + by eapply IH.
Qed.

Lemma steps_failure {A} (p : Prog A) s i st e :
  try_free p →
  steps h p s !! i = Some st → step_error st = Some e →
  run h p s = (step_post st, inl e) ∧ length (steps h p s) = S i.
Proof.
  revert s i. induction p as [? a|? e'|? X c k IH|? X body IHb handler IHh k IHk];
    intros s i Hp Hi He; [done..| |done].
  cbn [steps run] in *. destruct (h X c s) as [s' [e'|x]] eqn:Hc.
  - destruct i as [|i]; [|by destruct i].
    cbn in Hi. injection Hi as <-. cbn in He. by injection He as <-.
  - destruct i as [|i].
    + cbn in Hi. injection Hi as <-. done.
    + cbn in Hi. destruct (IH x s' i (Hp x) Hi He) as [-> Hl]. cbn. by rewrite Hl.
Qed.

Lemma steps_threaded {A} (p : Prog A) s : try_free p → threaded s (steps h p s).
Proof.
  revert s. induction p as [? a|? e'|? X c k IH|? X body IHb handler IHh k IHk];
    intros s Hp; [done..| |done].
  cbn [steps]. destruct (h X c s) as [s' [e'|x]]; cbn; auto.
Qed.

Lemma steps_failure_is_last {A} (p : Prog A) s i j st st' e :
  try_free p →
  steps h p s !! i = Some st → step_error st = Some e →
  (j < i)%nat → steps h p s !! j = Some st' → step_error st' = None.
Proof.
  intros Hp Hi He Hj Hj'. destruct (step_error st') as [e'|] eqn:He'; [|done].
  destruct (steps_failure p s j st' e' Hp Hj' He') as [_ Hlen].
  apply lookup_lt_Some in Hi. lia.
Qed.

(** What every host call keeps, a run keeps from call to call. *)
Section Along.
Variable keep : St → St → Prop.
Hypothesis keep_refl : ∀ s, keep s s.
Hypothesis keep_trans : ∀ a b c, keep a b → keep b c → keep a c.
Hypothesis keep_call : ∀ X (c : Cmd X) s s' r, h X c s = (s', r) → keep s s'.

Lemma steps_along {A} (p : Prog A) s j st :
  try_free p → steps h p s !! j = Some st →
  keep s (step_pre st) ∧ keep (step_pre st) (step_post st).
Proof.
  revert s j. induction p as [? a|? e'|? X c k IH|? X body IHb handler IHh k IHk];
    intros s j Hp Hj; [done..| |done].
  cbn [steps] in Hj. destruct (h X c s) as [s' [e'|x]] eqn:Hc.
  - destruct j as [|j]; [|by destruct j]. cbn in Hj. injection Hj as <-.
    cbn. eauto.
  - destruct j as [|j]; cbn in Hj.
    + injection Hj as <-. cbn. eauto.
    + destruct (IH x s' j (Hp x) Hj). eauto.
Qed.

Lemma steps_between {A} (p : Prog A) s j i st' st :
  try_free p → (j < i)%nat →
  steps h p s !! j = Some st' → steps h p s !! i = Some st →
  keep (step_post st') (step_pre st).
Proof.
  revert s j i. induction p as [? a|? e'|? X c k IH|? X body IHb handler IHh k IHk];
    intros s j i Hp Hji Hj Hi; [done..| |done].
  cbn [steps] in Hj, Hi. destruct (h X c s) as [s' [e'|x]] eqn:Hc.
  - destruct i as [|i]; [lia|by destruct i].
  - destruct i as [|i]; [lia|]. cbn in Hi. destruct j as [|j]; cbn in Hj.
    + injection Hj as <-. cbn. exact (proj1 (steps_along _ _ _ _ (Hp x) Hi)).
    + eapply IH; [done| |done..]. lia.
Qed.
End Along.
End RunFacts.

(** ** The host model *)

Ltac unbool :=
  repeat match goal with
  | H : _ && _ = true |- _ => apply andb_prop in H as [? ?]
  | H : _ || _ = false |- _ => apply orb_false_elim in H as [? ?]
  | H : bool_decide _ = true |- _ => apply bool_decide_eq_true_1 in H
  | H : bool_decide _ = false |- _ => apply bool_decide_eq_false_1 in H
  | H : forallb _ _ = true |- _ => rewrite forallb_forall in H
  end.

Ltac unfold_maya :=
  unfold Maya.create, Maya.do_group, Maya.do_parent, Maya.do_matchTransform,
    Maya.place, Maya.do_scale, Maya.do_makeIdentity, Maya.do_xform,
    Maya.do_orientConstraint, Maya.do_poleVectorConstraint, Maya.do_ikHandle,
    Maya.do_getAttr_poleVector, Maya.do_setAttr, Maya.do_addAttr,
    Maya.do_expression, Maya.do_listConnections, Maya.ok, Maya.fail.

Ltac unfold_maya_in H :=
  unfold Maya.create, Maya.do_group, Maya.do_parent, Maya.do_matchTransform,
    Maya.place, Maya.do_scale, Maya.do_makeIdentity, Maya.do_xform,
    Maya.do_orientConstraint, Maya.do_poleVectorConstraint, Maya.do_ikHandle,
    Maya.do_getAttr_poleVector, Maya.do_setAttr, Maya.do_addAttr,
    Maya.do_expression, Maya.do_listConnections, Maya.ok, Maya.fail in H.

Lemma maya_inv {X} (c : Cmd X) s s' x :
  Maya.maya X c s = (s', inr x) → Post.post c s s' x.
Proof.
  destruct c; cbn [Maya.maya Post.post]; unfold_maya; intros H;
    repeat (case_match; try discriminate H); simplify_eq; unbool.
  all: try done.
  all: try (repeat split; eauto 10; fail).
  repeat split; eauto. apply Forall_forall. intros m Hm.
  apply list_elem_of_In in Hm.
  match goal with H : ∀ x, In x _ → _ |- _ => apply H in Hm end.
  by apply bool_decide_eq_true_1 in Hm.
Qed.

(** A call that fails leaves the scene as it was. *)
Lemma maya_atomic {X} (c : Cmd X) s s' e :
  Maya.maya X c s = (s', inl e) → s' = s.
Proof.
  destruct c; cbn [Maya.maya]; unfold_maya; intros H;
    repeat (case_match; try discriminate H); by simplify_eq.
Qed.

(** ** Reading the selection *)

Lemma RigTheLimb_selected {St} (h : @Handler St) self s s' a b c rest :
  h _ ls_sl s = (s', inr (a :: b :: c :: rest)) →
  run h (RigTheLimb self) s = run h (rigJoints self a b c) s'.
Proof. intros H. unfold RigTheLimb. cbn. by rewrite H. Qed.

(** C10: with three or more names in the selection the subscripts succeed,
    the build goes on with the first three names as root, middle and end
    joint, whatever the host is, and the names after the third play no part:
    the run and its host calls are those of [rigJoints] on the first three,
    starting with the call that creates the root FK control. *)
Theorem RigTheLimb_first_three {St} (h : @Handler St) self s s' a b c rest :
  h _ ls_sl s = (s', inr (a :: b :: c :: rest)) →
  run h (RigTheLimb self) s = run h (rigJoints self a b c) s' ∧
  steps h (RigTheLimb self) s =
    mkStep (existT _ ls_sl) s s' None :: steps h (rigJoints self a b c) s' ∧
  ∃ k, rigJoints self a b c =
       Call (circle ("ac_fk_" +:+ a) (IZR (controllerSize self))
                    (mkMVector 1 0 0)) k.
Proof.
  intros H. split; [by eapply RigTheLimb_selected|]. split.
  - unfold RigTheLimb. cbn. by rewrite H.
  - eexists. reflexivity.
Qed.

Lemma RigTheLimb_first_three_witness :
  run Maya.maya (RigTheLimb Example.w15) Example.arm4 =
    run Maya.maya (rigJoints Example.w15 "shoulder" "elbow" "wrist") Example.arm4 ∧
  steps Maya.maya (RigTheLimb Example.w15) Example.arm4 =
    mkStep (existT _ ls_sl) Example.arm4 Example.arm4 None ::
      steps Maya.maya (rigJoints Example.w15 "shoulder" "elbow" "wrist")
            Example.arm4 ∧
  ∃ k, rigJoints Example.w15 "shoulder" "elbow" "wrist" =
       Call (circle ("ac_fk_" +:+ "shoulder")
                    (IZR (controllerSize Example.w15)) (mkMVector 1 0 0)) k.
Proof.
  apply (RigTheLimb_first_three Maya.maya Example.w15 Example.arm4 Example.arm4
           "shoulder" "elbow" "wrist" ["hand"]).
  reflexivity.
Defined.

(** C3, as the code has it: the tool has no check of the number of selected
    joints.  With fewer than three names selected the third subscript at the
    latest raises IndexError; this happens after the selection is read and
    before any other host call, so the scene is untouched. *)
Theorem RigTheLimb_short_selection self s :
  (length (selected s) < 3)%nat →
  run Maya.maya (RigTheLimb self) s = (s, inl IndexError) ∧
  steps Maya.maya (RigTheLimb self) s = [mkStep (existT _ ls_sl) s s None].
Proof.
  intros Hlen. unfold RigTheLimb. cbn.
  destruct (selected s) as [|a [|b [|c rest]]]; cbn in *; try done. lia.
Qed.

Lemma RigTheLimb_short_selection_witness :
  run Maya.maya (RigTheLimb Example.w15) Example.arm2 =
    (Example.arm2, inl IndexError) ∧
  steps Maya.maya (RigTheLimb Example.w15) Example.arm2 =
    [mkStep (existT _ ls_sl) Example.arm2 Example.arm2 None].
Proof.
  apply (RigTheLimb_short_selection Example.w15 Example.arm2).
  cbn. lia.
Defined.

(** C3 as stated fails: four joints are selected (not three) and the build
    goes through. *)
Lemma RigTheLimb_four_selected_succeeds :
  length (selected Example.arm4) ≠ 3%nat ∧ succeeds Example.w15 Example.arm4.
Proof. split; [cbn; lia|]. vm_compute. reflexivity. Qed.

(** ** Failing host calls *)

Lemma try_free_mc {X} (c : Cmd X) : try_free (mc c).
Proof. by intros x. Qed.

Lemma try_free_subscript {A} (l : list A) i : try_free (subscript l i).
Proof. unfold subscript. by destruct (l !! i). Qed.

Lemma try_free_subscript0_opt {A} (r : option (list A)) :
  try_free (subscript0_opt r).
Proof. destruct r; [apply try_free_subscript|done]. Qed.

Ltac try_free_step :=
  first
  [ exact I
  | apply try_free_mc
  | apply try_free_subscript
  | apply try_free_subscript0_opt
  | apply try_free_bind; [|intros ?]
  | match goal with
    | |- try_free (match ?x with _ => _ end) => destruct x
    end
  | progress cbv zeta ].

Lemma CreateFKForJnt_try_free self jnt : try_free (CreateFKForJnt self jnt).
Proof. unfold CreateFKForJnt, mbind, prog_bind. repeat try_free_step. Qed.

Lemma CreateIkControl_try_free self r m e : try_free (CreateIkControl self r m e).
Proof. unfold CreateIkControl, mbind, prog_bind. repeat try_free_step. Qed.

(** None of the three methods has a [try] statement. *)
Lemma RigTheLimb_try_free self : try_free (RigTheLimb self).
Proof.
  unfold RigTheLimb, rigJoints, mbind, prog_bind.
  repeat first [ apply CreateFKForJnt_try_free | apply CreateIkControl_try_free
               | try_free_step ].
Qed.

(** A method that does guard its call keeps the host's error to itself: the
    call fails, and the method returns as if nothing had happened. *)
Lemma guarded_call_is_caught :
  ¬ try_free (Example.guarded "ac_fk_shoulder_grp" "shoulder") ∧
  steps Maya.maya (Example.guarded "ac_fk_shoulder_grp" "shoulder") Example.arm =
    [mkStep (existT _ (matchTransform "ac_fk_shoulder_grp" "shoulder"))
            Example.arm Example.arm (Some (SceneGraphError "no such object"))] ∧
  run Maya.maya (Example.guarded "ac_fk_shoulder_grp" "shoulder") Example.arm =
    (Example.arm, inr tt).
Proof. split; [by intros []|]. split; reflexivity. Qed.

(** The host model never removes a node, whether the call goes through or
    not. *)
Lemma maya_nodes_stay {X} (c : Cmd X) s s' r :
  Maya.maya X c s = (s', r) → nodes_stay s s'.
Proof.
  intros H n Hn.
  destruct c; cbn [Maya.maya] in H; unfold_maya_in H;
    repeat (case_match; try discriminate H); simplify_eq; cbn;
    rewrite ?lookup_insert_is_Some'; auto.
Qed.

(** C8: none of the three methods has a [try] statement, so a host call that
    fails ends the build.  Whatever the host is: the build returns that very
    error, the failing call is its last host call, all the calls before it
    succeeded, and each call started in the state the call before it left;
    the state returned is the one the failing call left.  On the host model
    a failing call leaves the scene as it was, and every node that was there
    after an earlier call of the build (the nodes that call created, and the
    nodes of the initial scene) is still there: nothing is rolled back. *)
Theorem RigTheLimb_failure_propagates self :
  try_free (RigTheLimb self) ∧
  (∀ St (h : @Handler St) s i st e,
     steps h (RigTheLimb self) s !! i = Some st → step_error st = Some e →
     run h (RigTheLimb self) s = (step_post st, inl e) ∧
     length (steps h (RigTheLimb self) s) = S i ∧
     (∀ j st', (j < i)%nat → steps h (RigTheLimb self) s !! j = Some st' →
               step_error st' = None) ∧
     threaded s (steps h (RigTheLimb self) s)) ∧
  (∀ s i st e,
     steps Maya.maya (RigTheLimb self) s !! i = Some st → step_error st = Some e →
     step_post st = step_pre st ∧
     (∀ n, is_Some (nodes s !! n) → is_Some (nodes (step_post st) !! n)) ∧
     (∀ j st' n, (j < i)%nat →
        steps Maya.maya (RigTheLimb self) s !! j = Some st' →
        is_Some (nodes (step_post st') !! n) →
        is_Some (nodes (step_post st) !! n))).
Proof.
  pose proof (RigTheLimb_try_free self) as Hf.
  split; [exact Hf|]. split.
  - intros St h s i st e Hi He.
    destruct (steps_failure h _ s i st e Hf Hi He) as [Hrun Hlen].
    split; [done|]. split; [done|]. split.
    + intros j st' Hj Hj'.
      exact (steps_failure_is_last h _ s i j st st' e Hf Hi He Hj Hj').
    + by apply steps_threaded.
  - intros s i st e Hi He.
    assert (∀ a, nodes_stay a a) as Hrefl by (by intros a n).
    assert (∀ a b c, nodes_stay a b → nodes_stay b c → nodes_stay a c) as Htrans
      by (intros a b c Hab Hbc n Hn; auto).
    assert (step_post st = step_pre st) as Hpost.
    { destruct (steps_call Maya.maya _ s i st Hf Hi) as ([e'|x] & Hc & Hr).
      - by apply maya_atomic in Hc.
      - rewrite He in Hr. discriminate Hr. }
    split; [done|]. rewrite Hpost. split.
    + intros n Hn.
      by apply (steps_along Maya.maya nodes_stay Hrefl Htrans
                  (@maya_nodes_stay) _ s i st Hf Hi).
    + intros j st' n Hj Hj' Hn.
      by apply (steps_between Maya.maya nodes_stay Hrefl Htrans
                  (@maya_nodes_stay) _ s j i st' st Hf Hj Hj' Hi).
Qed.

Lemma RigTheLimb_failure_propagates_witness :
  ∃ st,
    steps Maya.maya (RigTheLimb Example.w15) Example.armReversed !! 21%nat =
      Some st ∧
    step_cmd st =
      existT _ (ikHandle "ikHandle_shoulder" "wrist" "shoulder" "ikRPsolver") ∧
    run Maya.maya (RigTheLimb Example.w15) Example.armReversed =
      (step_post st,
       inl (SceneGraphError "the end joint is not below the start joint")) ∧
    length (steps Maya.maya (RigTheLimb Example.w15) Example.armReversed) =
      22%nat ∧
    (∀ j st', (j < 21)%nat →
       steps Maya.maya (RigTheLimb Example.w15) Example.armReversed !! j =
         Some st' →
       step_error st' = None) ∧
    step_post st = step_pre st ∧
    (∀ j st' n, (j < 21)%nat →
       steps Maya.maya (RigTheLimb Example.w15) Example.armReversed !! j =
         Some st' →
       is_Some (nodes (step_post st') !! n) →
       is_Some (nodes (step_post st) !! n)) ∧
    Forall (λ n, is_Some (nodes (step_post st) !! n))
      ["ac_fk_wrist"; "ac_fk_wrist_grp"; "ac_fk_elbow"; "ac_fk_elbow_grp";
       "ac_fk_shoulder"; "ac_fk_shoulder_grp"; "ac_ik_shoulder";
       "ac_ik_shoulder_grp"].
Proof.
  assert (step_error <$>
            steps Maya.maya (RigTheLimb Example.w15) Example.armReversed !! 21%nat
          = Some (Some (SceneGraphError
                          "the end joint is not below the start joint")))
    as He by (vm_compute; reflexivity).
  assert (option_map step_cmd
            (steps Maya.maya (RigTheLimb Example.w15) Example.armReversed !! 21%nat)
          = Some (existT _ (ikHandle "ikHandle_shoulder" "wrist" "shoulder"
                                     "ikRPsolver") : {X : Type & Cmd X}))
    as Hc by reflexivity.
  destruct (steps Maya.maya (RigTheLimb Example.w15) Example.armReversed !! 21%nat)
    as [st|] eqn:E; [|discriminate He].
  injection He as He. injection Hc as Hc.
  destruct (RigTheLimb_failure_propagates Example.w15) as (_ & Hany & Hmaya).
  destruct (Hany _ Maya.maya _ _ _ _ E He) as (Hrun & Hlen & Hlast & _).
  destruct (Hmaya _ _ _ _ E He) as (Hpost & _ & Hnew).
  exists st. do 6 (split; [done|]). split; [done|].
  assert (fst (run Maya.maya (RigTheLimb Example.w15) Example.armReversed) =
          step_post st) as <- by (by rewrite Hrun).
  repeat constructor; apply (bool_decide_unpack _); vm_compute; exact I.
Defined.

Local Open Scope R_scope.

(** ** Symbolic runs of the build on the host model *)


Section MapFacts.
Context {K : Type} `{Countable K} {V : Type}.

Lemma when_insert_None (b : bool) (M : gmap K V) k v x :
  when b (<[k:=v]> M !! x = None) → when b (M !! x = None) ∧ when b (k ≠ x).
Proof.
  unfold when. intros Hb.
  split; intros Ht; apply Hb in Ht; apply lookup_insert_None in Ht; tauto.
Qed.

Lemma lookup_if_insert_ne (b : bool) c (v : V) (M : gmap K V) x :
  when b (c ≠ x) → (if b then <[c:=v]> M else M) !! x = M !! x.
Proof.
  intros Hc. destruct b; [|done]. rewrite lookup_insert_ne; [done|by apply Hc].
Qed.
End MapFacts.

Lemma lookup_under_parent_ne p n (M : gmap string string) x :
  n ≠ x → Maya.under_parent p n M !! x = M !! x.
Proof. intros. destruct p; cbn; [by rewrite lookup_insert_ne|done]. Qed.

Lemma lookup_under_parent_None n (M : gmap string string) x :
  Maya.under_parent None n M !! x = M !! x.
Proof. done. Qed.

Lemma orient_slot_new C N d c ds :
  Maya.orient_slot C N d = Some (c, ds, true) →
  N !! c = None ∧ ds = [] ∧ c = d +:+ "_orientConstraint1".
Proof. unfold Maya.orient_slot. intros H; repeat case_match; by simplify_eq. Qed.

Lemma orient_slot_old C N d c ds :
  Maya.orient_slot C N d = Some (c, ds, false) →
  ∃ l d', C !! d = Some (c :: l) ∧ N !! c = Some (OrientConstraint d' ds).
Proof.
  unfold Maya.orient_slot. intros H; repeat case_match; simplify_eq; eauto.
Qed.

Lemma orient_slot_when C N d c ds new :
  Maya.orient_slot C N d = Some (c, ds, new) → when new (N !! c = None).
Proof. intros H ->. by apply orient_slot_new in H as [? _]. Qed.

Ltac break H :=
  lazymatch type of H with
  | _ ∧ _ =>
      let H1 := fresh "G" in let H2 := fresh "G" in
      destruct H as [H1 H2]; break H1; break H2
  | ∃ _, _ => let x := fresh "x" in let H1 := fresh "G" in
      destruct H as [x H1]; break H1
  | _ => idtac
  end.

Ltac proj_in H :=
  cbn [selected nodes parents xforms attrs connections expressions rpSolver
       set_nodes set_parents set_xforms set_attrs set_connections
       set_expressions Maya.created Maya.grouped Maya.store Maya.common_parent
       forallb Maya.reparent foldr target formula Maya.source] in H.
Ltac proj :=
  cbn [selected nodes parents xforms attrs connections expressions rpSolver
       set_nodes set_parents set_xforms set_attrs set_connections
       set_expressions Maya.created Maya.grouped Maya.store Maya.common_parent
       forallb Maya.reparent foldr target formula Maya.source].

(** The fields of the current scene are kept as variables, each with the
    equation that defines it from the fields before the call. *)
Ltac abs1 H T :=
  tryif is_var T then idtac
  else (let V := fresh "V" in let HV := fresh "HV" in
        remember T as V eqn:HV in H).

Ltac abs_fields H :=
  lazymatch type of H with
  | run Maya.maya _ (mkScene ?sel ?N ?P ?X ?A ?C ?E ?rp) = _ =>
      abs1 H N; abs1 H P; abs1 H X; abs1 H A; abs1 H C; abs1 H E
  end.

Ltac norm_state H :=
  unfold Maya.created, Maya.grouped, Maya.store, set_nodes, set_parents,
    set_xforms, set_attrs, set_connections, set_expressions in H;
  proj_in H.

(** One host call of a run that succeeds. *)
Ltac step H :=
  rewrite run_Call in H;
  lazymatch type of H with
  | context [Maya.maya ?X ?c ?s] =>
      let E := fresh "E" in let s' := fresh "s" in
      destruct (Maya.maya X c s) as [s' [?|?]] eqn:E; [discriminate H|];
      apply maya_inv in E; cbn [Post.post] in E; proj_in E; break E; subst s';
      cbv beta in H; norm_state H; abs_fields H
  end.

Ltac unfold_tool H :=
  unfold rigJoints, CreateFKForJnt, CreateIkControl, mc in H;
  cbn [mbind prog_bind bind mret prog_ret] in H.

Ltac unroll_none H :=
  repeat first
  [ match type of H with
    | ?V !! _ = None => is_var V;
        match goal with HV : V = _ |- _ => rewrite HV in H end
    end
  | let F := fresh "F" in
    apply lookup_insert_None in H as [H F] ].

Ltac unroll_when H :=
  repeat first
  [ match type of H with
    | when _ (?V !! _ = None) => is_var V;
        match goal with HV : V = _ |- _ => rewrite HV in H end
    end
  | let F := fresh "F" in
    apply when_insert_None in H as [H F] ].

(** Freshness of each created name, as inequalities with the names created
    before it. *)
Ltac tidy :=
  repeat match goal with
  | H : Maya.orient_slot _ _ _ = Some (_, _, _) |- _ =>
      let W := fresh "W" in
      pose proof (orient_slot_when _ _ _ _ _ _ H) as W; unroll_when W;
      revert H
  end; intros;
  repeat match goal with
  | H : ?V !! _ = None |- _ => is_var V;
      lazymatch goal with HV : V = _ |- _ => idtac end; unroll_none H
  end.

Ltac ne_old :=
  match goal with
  | Hk : ?N !! ?k = None, Hy : ?N !! ?y = Some _ |- ?k ≠ ?y =>
      let Heq := fresh in
      intros Heq; rewrite Heq in Hk; rewrite Hk in Hy; discriminate Hy
  | Hk : ?N !! ?k = None, Hy : ?N !! ?y = Some _ |- ?y ≠ ?k =>
      let Heq := fresh in
      intros Heq; rewrite <- Heq in Hk; rewrite Hk in Hy; discriminate Hy
  end.

Ltac ne_base :=
  first [assumption | apply not_eq_sym; assumption | ne_old | congruence].

(** Two names differ: one was created while the other existed. *)
Ltac solve_ne :=
  lazymatch goal with
  | |- when ?b _ =>
      first
      [ assumption
      | let Hb := fresh "Hb" in
        intros Hb;
        first
        [ assumption
        | apply not_eq_sym; assumption
        | match goal with
          | F : when b (?x ≠ ?y) |- ?y ≠ ?x => exact (not_eq_sym (F Hb))
          | F : when b (?x ≠ ?y) |- ?x ≠ ?y => exact (F Hb)
          end
        | repeat match goal with W : when b _ |- _ => specialize (W Hb) end;
          ne_base ] ]
  | |- _ => first [ne_base | intros ?; congruence]
  end.

Ltac lookup_step :=
  first
  [ rewrite lookup_insert_eq
  | rewrite lookup_insert_ne by solve_ne
  | rewrite lookup_under_parent_ne by solve_ne
  | rewrite lookup_if_insert_ne by solve_ne
  | match goal with HV : ?V = _ |- context [?V !! _] => is_var V; rewrite HV end ].
Ltac lookup_chain := repeat lookup_step.

Ltac lookup_step_in H :=
  first
  [ rewrite lookup_insert_eq in H
  | rewrite lookup_insert_ne in H by solve_ne
  | rewrite lookup_under_parent_ne in H by solve_ne
  | rewrite lookup_if_insert_ne in H by solve_ne
  | match type of H with context [?V !! _] =>
      is_var V; match goal with HV : V = _ |- _ => rewrite HV in H end end ].
Ltac lookup_chain_in H := repeat lookup_step_in H.

(** The whole of [rigJoints], from a run that succeeds. *)
Ltac rig_exec H :=
  unfold_tool H;
  do 40 (step H);
  match type of H with
  | run _ (_ ← subscript0_opt ?x; _) _ = _ =>
      destruct x as [[|? ?]|]; try discriminate H
  end;
  cbn [mbind prog_bind bind subscript0_opt subscript lookup list_lookup] in H;
  do 3 (step H);
  cbn [run] in H; injection H as <-.

Lemma succeeds_built self s :
  succeeds self s → run Maya.maya (RigTheLimb self) s = (built self s, inr tt).
Proof. unfold succeeds, built. by destruct (run _ _ _) as [? ?]; cbn; intros ->. Qed.

Lemma build_joints self s r m e rest :
  selected s = r :: m :: e :: rest → succeeds self s →
  run Maya.maya (rigJoints self r m e) s = (built self s, inr tt).
Proof.
  intros Hsel Hok. rewrite <- (succeeds_built _ _ Hok). symmetry.
  apply (RigTheLimb_selected Maya.maya self s s r m e rest). cbn. by rewrite Hsel.
Qed.

(** *** With a closed parent map *)

Lemma closed_None (N : gmap string Node) (P : gmap string string) k :
  map_Forall (fun x p => is_Some (N !! x) ∧ is_Some (N !! p)) P →
  N !! k = None → P !! k = None.
Proof.
  intros Hc Hk. destruct (P !! k) as [p|] eqn:E; [|done].
  apply Hc in E as [[? E] _]. congruence.
Qed.

Lemma closed_Some (N : gmap string Node) (P : gmap string string) x p :
  map_Forall (fun x p => is_Some (N !! x) ∧ is_Some (N !! p)) P →
  P !! x = Some p → is_Some (N !! x) ∧ is_Some (N !! p).
Proof. intros Hc E. by apply Hc in E. Qed.

Lemma lookup_insert_Some_or {K} `{Countable K} {V} (M : gmap K V) k v x y :
  <[k:=v]> M !! x = Some y → (k = x ∧ v = y) ∨ M !! x = Some y.
Proof. rewrite lookup_insert_Some. tauto. Qed.

Lemma lookup_if_insert_Some_or {K} `{Countable K} {V} (b : bool) (M : gmap K V) k v x y :
  (if b then <[k:=v]> M else M) !! x = Some y →
  (b = true ∧ k = x ∧ v = y) ∨ M !! x = Some y.
Proof. destruct b; [|tauto]. rewrite lookup_insert_Some. tauto. Qed.

Lemma is_under_top (P : gmap string string) a b t :
  P !! a = Some t → P !! t = None → t ≠ b → Maya.is_under P a b = false.
Proof.
  intros Ha Ht Hne. unfold Maya.is_under. cbn [Maya.is_under_fuel].
  rewrite Ha. rewrite bool_decide_eq_false_2 by done. cbn.
  destruct (size P); cbn; [done|]. by rewrite Ht.
Qed.

(** A new group of top-level nodes is at top level: the [under_parent] of
    each group disappears. *)
Ltac simplify_groups Hcl :=
  repeat match goal with
  | HV : _ = Maya.under_parent (?P !! ?c) ?n ?M |- _ =>
      let Hp := fresh "Hp" in
      assert (P !! c = None) as Hp
        by (lookup_chain; first [done | by apply (closed_None _ _ _ Hcl)]);
      rewrite Hp in HV; cbn [Maya.under_parent] in HV; clear Hp
  end.

Ltac start Hsel Hok sf H :=
  pose proof (build_joints _ _ _ _ _ _ Hsel Hok) as H;
  match type of H with _ = (?b, _) => generalize dependent b end;
  intros sf H; clear Hsel Hok;
  unfold Names.blendAttr in *;
  unfold Names.grp, Names.fkCtrl, Names.ikCtrl, Names.handle, Names.blendCtrl,
    Names.topGrp, Names.orientNode, Names.poleNode in *.

Lemma if_same {A} (b : bool) (x : A) : (if b then x else x) = x.
Proof. by destruct b. Qed.

(** The four branches are at top level when they are grouped, so the rig
    group is too. *)
Ltac simplify_top Hcl :=
  match goal with
  | HV : _ = Maya.under_parent (if _ then ?P !! ?a else None) _ _ |- _ =>
      let Hp := fresh "Hp" in
      assert (P !! a = None) as Hp
        by (lookup_chain; first [done | by apply (closed_None _ _ _ Hcl)]);
      rewrite Hp, if_same in HV; cbn [Maya.under_parent] in HV; clear Hp
  end.

(** A node that exists when [top] is created is not [top]. *)
Ltac exists_ne j :=
  let Heq := fresh "Heq" in
  intros Heq;
  match goal with
  | G : is_Some (?V !! j) |- _ =>
      rewrite Heq in G; lookup_chain_in G;
      match type of G with is_Some (?N !! ?k) =>
        match goal with F : N !! k = None |- _ =>
          rewrite F in G; by destruct G end end
  end.

(** Who can have [y] as parent: case analysis along the chain of updates. *)
Ltac parent_cases H tac :=
  repeat first
  [ match type of H with
    | ?V !! _ = Some _ => is_var V;
        match goal with HV : V = _ |- _ => rewrite HV in H end
    end
  | let Hv := fresh "Hv" in
    apply lookup_insert_Some_or in H as [[<- Hv]|H]; [solve [tac Hv]|]
  | let Hv := fresh "Hv" in let Hb := fresh "Hb" in
    apply lookup_if_insert_Some_or in H as [(Hb & <- & Hv)|H]; [solve [tac Hv]|] ].

(** *** Attributes and expressions *)

Lemma driven_app es es' p :
  Maya.driven (es ++ es') p =
  match Maya.driven es p with Some y => Some y | None => Maya.driven es' p end.
Proof.
  unfold Maya.driven. induction es as [|a es IH]; cbn; [done|].
  by destruct (bool_decide (target a = p)).
Qed.

Lemma driven_snoc_new es x :
  Maya.driven es (target x) = None → Maya.driven (es ++ [x]) (target x) = Some x.
Proof.
  intros Hn. rewrite driven_app, Hn. cbn. by rewrite bool_decide_eq_true_2.
Qed.

Lemma driven_snoc_Some es x p y :
  Maya.driven es p = Some y → Maya.driven (es ++ [x]) p = Some y.
Proof. intros Hn. by rewrite driven_app, Hn. Qed.

Lemma driven_snoc_None es x p :
  Maya.driven es p = None → target x ≠ p → Maya.driven (es ++ [x]) p = None.
Proof.
  intros Hn Hne. rewrite driven_app, Hn. cbn. by rewrite bool_decide_eq_false_2.
Qed.

Ltac solve_plug_ne :=
  first [ solve_ne
        | let Heq := fresh in let H1 := fresh in let H2 := fresh in
          intros Heq; injection Heq as H1 H2; cbn in H1, H2;
          first [discriminate | congruence] ].

Ltac attr_step :=
  first
  [ rewrite lookup_insert_eq
  | rewrite lookup_alter_eq
  | rewrite lookup_insert_ne by solve_plug_ne
  | rewrite lookup_alter_ne by solve_plug_ne
  | rewrite lookup_if_insert_ne by solve_plug_ne
  | match goal with HV : ?V = _ |- context [?V !! _] => is_var V; rewrite HV end ].
Ltac attr_chain := repeat attr_step.

Lemma driven_snoc es x p :
  Maya.driven (es ++ [x]) p =
  match Maya.driven es p with
  | Some y => Some y
  | None => if bool_decide (target x = p) then Some x else None
  end.
Proof. by rewrite driven_app. Qed.

(** The expression that drives a plug, along the expressions added. *)
Ltac driven_step :=
  first
  [ match goal with G : Maya.driven ?E ?p = _ |- context [Maya.driven ?E ?p] =>
      rewrite G end
  | match goal with HV : ?V = _ ++ [_] |- context [Maya.driven ?V _] =>
      rewrite HV, driven_snoc; cbn [target]
    end
  | rewrite bool_decide_eq_false_2 by solve_plug_ne
  | rewrite bool_decide_eq_true_2 by reflexivity ].
Ltac driven_chain := repeat driven_step.

(** Which node can be of a given kind: case analysis along the updates. *)
Ltac node_cases H tac :=
  repeat first
  [ match type of H with
    | ?V !! _ = Some _ => is_var V;
        match goal with HV : V = _ |- _ => rewrite HV in H end
    end
  | let Hv := fresh "Hv" in
    apply lookup_insert_Some_or in H as [[<- Hv]|H]; [solve [tac Hv]|] ].

Lemma orient_slot_unconstrained C N d c ds new :
  C !! d = None → Maya.orient_slot C N d = Some (c, ds, new) →
  c = d +:+ "_orientConstraint1" ∧ ds = [] ∧ new = true.
Proof.
  unfold Maya.orient_slot. intros -> H. by repeat case_match; simplify_eq.
Qed.

Lemma orient_slot_constrained C N d c l d' ds' c2 ds2 new2 :
  C !! d = Some (c :: l) → N !! c = Some (OrientConstraint d' ds') →
  Maya.orient_slot C N d = Some (c2, ds2, new2) →
  c2 = c ∧ ds2 = ds' ∧ new2 = false.
Proof. unfold Maya.orient_slot. intros -> -> H. by simplify_eq. Qed.

Lemma weightAlias_0 d : Maya.weightAlias d 0 = d +:+ "W0".
Proof. reflexivity. Qed.
Lemma weightAlias_1 d : Maya.weightAlias d 1 = d +:+ "W1".
Proof. reflexivity. Qed.

Ltac reduce_aliases :=
  repeat match goal with
  | HV : context [Maya.weightAlias _ (length _)] |- _ =>
      cbn [length app] in HV; rewrite ?weightAlias_0, ?weightAlias_1 in HV
  end;
  rewrite ?weightAlias_0, ?weightAlias_1.

Ltac reduce_ifs :=
  repeat match goal with
  | HV : context [if true then _ else _] |- _ => cbv iota in HV
  | HV : context [if false then _ else _] |- _ => cbv iota in HV
  end.

(** The end joint carried no orient constraint: the FK control becomes
    driver 0 of a new constraint node and the IK control its driver 1. *)
Ltac resolve_end e :=
  match goal with
  | G : Maya.orient_slot ?C ?N e = Some (?c, ?ds, ?new) |- _ =>
      let Hc := fresh "Hc" in
      assert (C !! e = None) as Hc by (lookup_chain; assumption);
      destruct (orient_slot_unconstrained _ _ _ _ _ _ Hc G) as (? & ? & ?);
      clear Hc G; subst c ds new; reduce_ifs
  end;
  match goal with
  | G : Maya.orient_slot ?C ?N e = Some (?c, ?ds, ?new) |- _ =>
      let Hc := fresh "Hc" in let Hn := fresh "Hn" in
      eassert (C !! e = Some (_ :: _)) as Hc by (lookup_chain; reflexivity);
      match type of Hc with _ = Some (?c1 :: _) =>
        eassert (N !! c1 = Some (OrientConstraint _ _)) as Hn
          by (lookup_chain; reflexivity) end;
      destruct (orient_slot_constrained _ _ _ _ _ _ _ _ _ _ Hc Hn G)
        as (? & ? & ?);
      clear Hc Hn G; subst c ds new; reduce_ifs
  end;
  match goal with
  | G : Some (?c :: ?l) = (if _ then _ else None) |- _ =>
      rewrite bool_decide_eq_true_2 in G by reflexivity;
      lookup_chain_in G; cbv iota in G; injection G as ? ?; subst c l
  end;
  reduce_aliases.

Lemma clamp_unit b : 0 <= b <= 1 → Maya.clamp (Some (0, 1)) b = b.
Proof.
  intros [H0 H1]. unfold Maya.clamp.
  rewrite (Rmin_right 1 b) by lra. by rewrite Rmax_right by lra.
Qed.

(** *** World positions *)

Lemma lookup_shift_subtree P g δ (X : gmap string Xform) x :
  Maya.shift_subtree P g δ X !! x =
  (fun xf => if Maya.is_under P x g then Maya.shift δ xf else xf) <$> X !! x.
Proof.
  unfold Maya.shift_subtree. rewrite map_lookup_imap. by destruct (X !! x).
Qed.

Lemma lookup_shift_subtree_out P g δ (X : gmap string Xform) x :
  Maya.is_under P x g = false → Maya.shift_subtree P g δ X !! x = X !! x.
Proof. intros Hu. rewrite lookup_shift_subtree, Hu. by destruct (X !! x). Qed.

Lemma lookup_shift_subtree_in P g δ (X : gmap string Xform) x :
  Maya.is_under P x g = true →
  Maya.shift_subtree P g δ X !! x = Maya.shift δ <$> X !! x.
Proof. intros Hu. by rewrite lookup_shift_subtree, Hu. Qed.


Lemma not_under_old N0 P0 P g x :
  map_Forall (fun x p => is_Some (N0 !! x) ∧ is_Some (N0 !! p)) P0 →
  N0 !! g = None → is_Some (N0 !! x) → agrees N0 P0 P →
  Maya.is_under P x g = false.
Proof.
  intros Hcl Hg Hx0 Hag. revert x Hx0. unfold Maya.is_under.
  generalize (S (size P)) as fuel.
  intros fuel. induction fuel as [|fuel IH]; intros x Hx; [done|].
  cbn [Maya.is_under_fuel]. rewrite (Hag x Hx).
  destruct (P0 !! x) as [p|] eqn:E; [|done].
  apply (closed_Some _ _ _ _ Hcl) in E as [_ Hp].
  rewrite bool_decide_eq_false_2; [by apply IH|].
  intros ->. rewrite Hg in Hp. by destruct Hp.
Qed.

Lemma is_under_root (P : gmap string string) x g :
  P !! x = None → Maya.is_under P x g = false.
Proof. intros Hx. unfold Maya.is_under. cbn. by rewrite Hx. Qed.

Lemma is_under_child (P : gmap string string) x g :
  P !! x = Some g → Maya.is_under P x g = true.
Proof.
  intros Hx. unfold Maya.is_under. cbn. rewrite Hx.
  by rewrite bool_decide_eq_true_2.
Qed.

(** The joints the handle spans are joints of the initial scene. *)
Ltac joints_old :=
  repeat match goal with
  | G : ?V !! _ = Some Joint |- _ =>
      is_var V; lazymatch goal with HV : V = _ |- _ => idtac end;
      node_cases G ltac:(fun Hv => discriminate Hv)
  end.

Ltac prove_agrees :=
  let y := fresh "y" in let nd := fresh "nd" in let Hy := fresh "Hy" in
  intros y [nd Hy]; lookup_chain; reflexivity.

Ltac not_under Hcl :=
  first
  [ eapply not_under_old; [exact Hcl | assumption | solve [eauto] | prove_agrees]
  | apply is_under_root; lookup_chain;
    first [reflexivity | by apply (closed_None _ _ _ Hcl)] ].

Ltac xf_step Hcl :=
  first
  [ rewrite lookup_insert_eq
  | rewrite lookup_insert_ne by solve_ne
  | rewrite lookup_shift_subtree_out by not_under Hcl
  | rewrite lookup_shift_subtree_in
      by (apply is_under_child; lookup_chain; reflexivity)
  | match goal with HV : ?V = _ |- context [?V !! _] => is_var V; rewrite HV end ].
Ltac xf_chain Hcl := repeat xf_step Hcl.

Ltac xf_step_in Hcl H :=
  first
  [ rewrite lookup_insert_eq in H
  | rewrite lookup_insert_ne in H by solve_ne
  | rewrite lookup_shift_subtree_out in H by not_under Hcl
  | match type of H with context [?V !! _] =>
      is_var V; match goal with HV : V = _ |- _ => rewrite HV in H end end ].
Ltac xf_chain_in Hcl H := repeat xf_step_in Hcl H.

(** A group made of top-level nodes sits at the origin. *)
Ltac simplify_origins Hcl :=
  repeat match goal with
  | HV : context [Maya.origin_of _ (?P !! ?c)] |- _ =>
      let Hp := fresh "Hp" in
      assert (P !! c = None) as Hp
        by (lookup_chain; first [done | by apply (closed_None _ _ _ Hcl)]);
      rewrite Hp in HV; clear Hp
  end.

(** A position the tool reads from a joint is the joint's position in the
    initial scene. *)
Ltac read_position Hcl j Hp :=
  repeat match goal with
  | G : Maya.position _ j = Some ?q |- _ =>
      unfold Maya.position in G; proj_in G; xf_chain_in Hcl G;
      rewrite Hp in G; cbn [fmap option_fmap option_map] in G;
      injection G as G; subst q
  end.

(** ** The FK chain *)

(** C5: after a build that succeeds, the group of the middle FK control is a
    child of the root FK control and the group of the end FK control is a
    child of the middle FK control. *)
Theorem fk_chain_parents self s r m e rest :
  selected s = r :: m :: e :: rest → succeeds self s →
  parents (built self s) !! Names.grp (Names.fkCtrl m) = Some (Names.fkCtrl r) ∧
  parents (built self s) !! Names.grp (Names.fkCtrl e) = Some (Names.fkCtrl m).
Proof.
  intros Hsel Hok. start Hsel Hok sf H.
  destruct s as [sel N0 P0 X0 A0 C0 E0 rp].
  rig_exec H. tidy. proj.
  split; lookup_chain; reflexivity.
Qed.

Lemma fk_chain_parents_witness :
  parents (built Example.w15 Example.arm) !! Names.grp (Names.fkCtrl "elbow")
    = Some (Names.fkCtrl "shoulder") ∧
  parents (built Example.w15 Example.arm) !! Names.grp (Names.fkCtrl "wrist")
    = Some (Names.fkCtrl "elbow").
Proof.
  apply (fk_chain_parents Example.w15 Example.arm "shoulder" "elbow" "wrist" []).
  - reflexivity.
  - vm_compute. reflexivity.
Defined.

(** ** The hierarchy *)

(** C6: after a build that succeeds (in a scene whose parent map is closed),
    the group named after the root joint is new, at top level, and its
    children are exactly the four branches; the branches are four different
    nodes, none below another.  Nothing else was moved in the hierarchy: the
    nodes of the initial scene have the parent they had, and the controls,
    the FK groups and the handle have the parents the FK chain and the IK
    construction gave them. *)
Theorem rig_hierarchy self s r m e rest :
  selected s = r :: m :: e :: rest → succeeds self s → closed s →
  let sf := built self s in
  let top := Names.topGrp r in
  (nodes s !! top = None ∧ nodes sf !! top = Some (Transform NoShape) ∧
   parents sf !! top = None) ∧
  (∀ x, parents sf !! x = Some top ↔ x ∈ branches r m e) ∧
  NoDup (branches r m e) ∧
  (∀ a b, a ∈ branches r m e → b ∈ branches r m e →
          Maya.is_under (parents sf) a b = false) ∧
  (∀ x, is_Some (nodes s !! x) → parents sf !! x = parents s !! x) ∧
  (parents sf !! Names.fkCtrl r = Some (Names.grp (Names.fkCtrl r)) ∧
   parents sf !! Names.fkCtrl m = Some (Names.grp (Names.fkCtrl m)) ∧
   parents sf !! Names.fkCtrl e = Some (Names.grp (Names.fkCtrl e)) ∧
   parents sf !! Names.grp (Names.fkCtrl m) = Some (Names.fkCtrl r) ∧
   parents sf !! Names.grp (Names.fkCtrl e) = Some (Names.fkCtrl m) ∧
   parents sf !! Names.ikCtrl e = Some (Names.grp (Names.ikCtrl e)) ∧
   parents sf !! Names.handle e = Some (Names.ikCtrl e) ∧
   parents sf !! Names.ikCtrl m = Some (Names.grp (Names.ikCtrl m)) ∧
   parents sf !! Names.blendCtrl r = Some (Names.grp (Names.blendCtrl r))).
Proof.
  intros Hsel Hok Hcl sf top. subst sf top. unfold branches.
  start Hsel Hok sf H.
  destruct s as [sel N0 P0 X0 A0 C0 E0 rp].
  unfold closed in Hcl. cbn [nodes parents] in Hcl |- *.
  rig_exec H. tidy. proj.
  simplify_groups Hcl. simplify_top Hcl.
  assert (r ≠ r +:+ "_rig_grp") as Hr by exists_ne r.
  assert (m ≠ r +:+ "_rig_grp") as Hm by exists_ne m.
  assert (e ≠ r +:+ "_rig_grp") as He by exists_ne e.
  match goal with |- (_ ∧ _ ∧ ?P !! ?t = None) ∧ _ =>
    assert (P !! t = None) as Htop
      by (lookup_chain; by apply (closed_None _ _ _ Hcl)) end.
  match goal with |- _ ∧ (∀ x, ?P !! x = Some ?t ↔ x ∈ ?l) ∧ _ =>
    assert (∀ x, x ∈ l → P !! x = Some t) as Hin
      by (intros z Hz; rewrite !elem_of_cons, elem_of_nil in Hz;
          destruct Hz as [->|[->|[->|[->|[]]]]]; lookup_chain; reflexivity) end.
  split; [|split; [|split; [|split; [|split]]]].
  - split; [assumption|]. split; [lookup_chain; reflexivity|assumption].
  - intros z. split; [|apply Hin]. intros Hz.
    parent_cases Hz ltac:(fun Hv =>
      first [ exfalso; revert Hv; solve_ne
            | rewrite !elem_of_cons; tauto ]).
    apply (closed_Some _ _ _ _ Hcl) in Hz as [_ [? Hz]]. congruence.
  - rewrite !NoDup_cons, !not_elem_of_cons.
    repeat split; try solve_ne; try apply not_elem_of_nil. apply NoDup_nil_2.
  - intros a b Ha Hb. apply (is_under_top _ _ _ (r +:+ "_rig_grp")); auto.
    rewrite !elem_of_cons, elem_of_nil in Hb.
    destruct Hb as [->|[->|[->|[->|[]]]]]; solve_ne.
  - intros z [nd Hz]. lookup_chain. reflexivity.
  - repeat split; lookup_chain; reflexivity.
Qed.

Lemma rig_hierarchy_witness :
  let sf := built Example.w15 Example.arm in
  let top := Names.topGrp "shoulder" in
  (nodes Example.arm !! top = None ∧ nodes sf !! top = Some (Transform NoShape) ∧
   parents sf !! top = None) ∧
  (∀ x, parents sf !! x = Some top ↔ x ∈ branches "shoulder" "elbow" "wrist") ∧
  NoDup (branches "shoulder" "elbow" "wrist") ∧
  (∀ a b, a ∈ branches "shoulder" "elbow" "wrist" →
          b ∈ branches "shoulder" "elbow" "wrist" →
          Maya.is_under (parents sf) a b = false) ∧
  (∀ x, is_Some (nodes Example.arm !! x) →
        parents sf !! x = parents Example.arm !! x) ∧
  (parents sf !! Names.fkCtrl "shoulder" = Some (Names.grp (Names.fkCtrl "shoulder")) ∧
   parents sf !! Names.fkCtrl "elbow" = Some (Names.grp (Names.fkCtrl "elbow")) ∧
   parents sf !! Names.fkCtrl "wrist" = Some (Names.grp (Names.fkCtrl "wrist")) ∧
   parents sf !! Names.grp (Names.fkCtrl "elbow") = Some (Names.fkCtrl "shoulder") ∧
   parents sf !! Names.grp (Names.fkCtrl "wrist") = Some (Names.fkCtrl "elbow") ∧
   parents sf !! Names.ikCtrl "wrist" = Some (Names.grp (Names.ikCtrl "wrist")) ∧
   parents sf !! Names.handle "wrist" = Some (Names.ikCtrl "wrist") ∧
   parents sf !! Names.ikCtrl "elbow" = Some (Names.grp (Names.ikCtrl "elbow")) ∧
   parents sf !! Names.blendCtrl "shoulder"
     = Some (Names.grp (Names.blendCtrl "shoulder"))).
Proof.
  apply (rig_hierarchy Example.w15 Example.arm "shoulder" "elbow" "wrist" []).
  - reflexivity.
  - vm_compute. reflexivity.
  - unfold closed. apply (bool_decide_unpack _). vm_compute. exact I.
Defined.

(** ** The IK handle *)

(** C9: a build that succeeds creates one IK handle, named after the end
    joint, from the root joint to the end joint with the rotate-plane solver
    (every other handle of the final scene was there before); the handle
    carries a pole-vector constraint whose driver is the locator named after
    the middle joint; and its visibility is 0, by value and as shown. *)
Theorem ik_handle self s r m e rest :
  selected s = r :: m :: e :: rest → succeeds self s →
  let sf := built self s in
  let h := Names.handle e in
  nodes s !! h = None ∧
  nodes sf !! h = Some (IkHandle r e "ikRPsolver" (rpSolver s r e)) ∧
  (∀ n sj ee sol pv, nodes sf !! n = Some (IkHandle sj ee sol pv) →
     n = h ∨ nodes s !! n = Some (IkHandle sj ee sol pv)) ∧
  nodes sf !! Names.poleNode h = Some (PoleVectorConstraint (Names.ikCtrl m) h) ∧
  nodes sf !! Names.ikCtrl m = Some (Transform Locator) ∧
  Maya.stored sf (h, "v") = Some 0 ∧
  Maya.attr_value sf (h, "v") = Some 0.
Proof.
  intros Hsel Hok sf h. subst sf h.
  start Hsel Hok sf H.
  destruct s as [sel N0 P0 X0 A0 C0 E0 rp]. cbn [nodes rpSolver].
  rig_exec H. tidy. proj.
  match goal with |- context [Maya.stored ?sf ?p] =>
    assert (Maya.stored sf p = Some 0) as Hv
      by (unfold Maya.stored; proj; attr_chain; reflexivity) end.
  split; [assumption|]. split; [lookup_chain; reflexivity|]. split.
  { intros n sj ee sol pv Hn.
    node_cases Hn ltac:(fun Hv => first [discriminate Hv | by left]).
    by right. }
  split; [lookup_chain; reflexivity|]. split; [lookup_chain; reflexivity|].
  split; [exact Hv|].
  unfold Maya.attr_value. proj.
  match goal with |- context [Maya.driven ?E ?p] =>
    replace (Maya.driven E p) with (@None Expression); [exact Hv|] end.
  symmetry. driven_chain. reflexivity.
Qed.

Lemma ik_handle_witness :
  let sf := built Example.w15 Example.arm in
  let h := Names.handle "wrist" in
  nodes Example.arm !! h = None ∧
  nodes sf !! h =
    Some (IkHandle "shoulder" "wrist" "ikRPsolver"
                   (rpSolver Example.arm "shoulder" "wrist")) ∧
  (∀ n sj ee sol pv, nodes sf !! n = Some (IkHandle sj ee sol pv) →
     n = h ∨ nodes Example.arm !! n = Some (IkHandle sj ee sol pv)) ∧
  nodes sf !! Names.poleNode h
    = Some (PoleVectorConstraint (Names.ikCtrl "elbow") h) ∧
  nodes sf !! Names.ikCtrl "elbow" = Some (Transform Locator) ∧
  Maya.stored sf (h, "v") = Some 0 ∧
  Maya.attr_value sf (h, "v") = Some 0.
Proof.
  apply (ik_handle Example.w15 Example.arm "shoulder" "elbow" "wrist" []).
  - reflexivity.
  - vm_compute. reflexivity.
Defined.

(** ** The blend wiring *)

(** The expressions of a build, the constraint of the end joint and what the
    driven attributes read for a value of the blend attribute. *)
Lemma blend_wiring self s r m e rest :
  selected s = r :: m :: e :: rest → succeeds self s →
  connections s !! e = None →
  let sf := built self s in
  expressions sf = expressions s ++ rigExpressions r m e ∧
  connections sf !! e = Some [Names.orientNode e] ∧
  nodes sf !! Names.orientNode e =
    Some (OrientConstraint e [Names.fkCtrl e; Names.ikCtrl e]) ∧
  ∀ b, (λ x, Maya.attr_value (with_blend r b sf) (target x)) <$> rigExpressions r m e =
       (λ x, Some match formula x with
                  | Same _ => Maya.clamp (Some (0, 1)) b
                  | OneMinus _ => 1 - Maya.clamp (Some (0, 1)) b
                  end) <$> rigExpressions r m e.
Proof.
  intros Hsel Hok Hfree sf. subst sf. unfold rigExpressions, with_blend.
  start Hsel Hok sf H.
  destruct s as [sel N0 P0 X0 A0 C0 E0 rp]. cbn [nodes connections expressions] in *.
  rig_exec H. tidy. proj.
  resolve_end e.
  split; [|split; [|split]].
  - repeat match goal with
    | HV : ?V = _ ++ [_] |- context [?V] => rewrite HV
    end.
    rewrite <- !app_assoc. reflexivity.
  - lookup_chain. reflexivity.
  - lookup_chain. reflexivity.
  - intros b. cbn [fmap list_fmap target formula].
    unfold Maya.attr_value, Maya.eval, Maya.stored. proj.
    repeat (apply (f_equal2 cons)); [..|reflexivity];
      (driven_chain; cbv iota; cbn [formula]; attr_chain; reflexivity).
Qed.






(** ** Placement *)

(** C7: the group of the blend control is moved to [p + (p.x, 0, 0)], where
    [p] is the world position of the root joint, and the blend control, which
    sits in its group, ends at [(2 p.x, p.y, p.z)]. *)
Theorem blend_control_position self s r m e rest p :
  selected s = r :: m :: e :: rest → succeeds self s → closed s →
  Maya.position s r = Some p →
  let sf := built self s in
  Maya.position sf (Names.grp (Names.blendCtrl r)) =
    Some (p +v mkMVector (vx p) 0 0) ∧
  Maya.position sf (Names.blendCtrl r) = Some (mkMVector (2 * vx p) (vy p) (vz p)).
Proof.
  intros Hsel Hok Hcl Hp sf. subst sf.
  start Hsel Hok sf H.
  destruct s as [sel N0 P0 X0 A0 C0 E0 rp].
  unfold closed in Hcl. unfold Maya.position in Hp.
  cbn [nodes parents xforms] in Hcl, Hp |- *.
  rig_exec H. tidy. proj.
  simplify_groups Hcl. joints_old.
  read_position Hcl r Hp.
  simplify_origins Hcl.
  match goal with
  | G : _ !! (("ac_ikfk_blend_" +:+ r) +:+ "_grp") = Some ?x |- _ =>
      is_var x; xf_chain_in Hcl G; injection G as G; subst x
  end.
  unfold Maya.position. proj. split.
  - xf_chain Hcl. destruct p as [a b c]. reflexivity.
  - xf_chain Hcl. destruct p as [a b c].
    cbn. unfold Vec.add, Vec.sub, Vec.zero. cbn. do 2 f_equal; lra.
Qed.

Lemma blend_control_position_witness :
  Maya.position Example.leg "hip" = Some (mkMVector 3 4 5) ∧
  Maya.position (built Example.w15 Example.leg) (Names.grp (Names.blendCtrl "hip")) =
    Some (mkMVector (3 + 3) (4 + 0) (5 + 0)) ∧
  Maya.position (built Example.w15 Example.leg) (Names.blendCtrl "hip") =
    Some (mkMVector (2 * 3) 4 5).
Proof.
  split; [reflexivity|].
  apply (blend_control_position Example.w15 Example.leg
           "hip" "knee" "ankle" [] (mkMVector 3 4 5)).
  - reflexivity.
  - vm_compute. reflexivity.
  - unfold closed. apply (bool_decide_unpack _). vm_compute. exact I.
  - reflexivity.
Defined.

(** * More of the limb tool *)

(** ** The constraint lookup *)




(** ** Where the controls are *)

Lemma under_fuel_root (P : gmap string string) x g :
  P !! x = None → ∀ f, Maya.is_under_fuel P f x g = false.
Proof. intros Hx [|f]; cbn; [done|]. by rewrite Hx. Qed.

Lemma under_fuel_up (P : gmap string string) x p g :
  P !! x = Some p → p ≠ g → (∀ f, Maya.is_under_fuel P f p g = false) →
  ∀ f, Maya.is_under_fuel P f x g = false.
Proof.
  intros Hx Hne Hp [|f]; cbn; [done|].
  by rewrite Hx, bool_decide_eq_false_2, Hp.
Qed.

Lemma under_fuel_old N0 P0 P g x :
  map_Forall (fun x p => is_Some (N0 !! x) ∧ is_Some (N0 !! p)) P0 →
  N0 !! g = None → is_Some (N0 !! x) → agrees N0 P0 P →
  ∀ f, Maya.is_under_fuel P f x g = false.
Proof.
  intros Hcl Hg Hx0 Hag f. revert x Hx0.
  induction f as [|f IH]; intros x Hx; [done|].
  cbn [Maya.is_under_fuel]. rewrite (Hag x Hx).
  destruct (P0 !! x) as [p|] eqn:E; [|done].
  apply (closed_Some _ _ _ _ Hcl) in E as [_ Hp].
  rewrite bool_decide_eq_false_2; [by apply IH|].
  intros ->. rewrite Hg in Hp. by destruct Hp.
Qed.

Lemma is_under_never (P : gmap string string) x g :
  (∀ f, Maya.is_under_fuel P f x g = false) → Maya.is_under P x g = false.
Proof. intros H. apply H. Qed.

(** The parent of [x] in each version of the parent map, one update at a
    time. *)
Ltac parent_layer Hcl :=
  match goal with HV : ?V = _ |- ?V !! _ = _ => rewrite HV end;
  repeat first
    [ rewrite lookup_insert_ne by solve_ne
    | rewrite lookup_if_insert_ne by solve_ne ];
  first
  [ rewrite lookup_insert_eq; reflexivity
  | eassumption
  | apply (closed_None _ _ _ Hcl); assumption ].

Ltac cache_parent Hcl x :=
  repeat match reverse goal with
  | HV : ?V = _ |- _ =>
      is_var V;
      lazymatch type of V with gmap string string => idtac end;
      lazymatch goal with
      | K : V !! x = _ |- _ => fail
      | _ => idtac
      end;
      let K := fresh "K" in
      eassert (V !! x = _) as K by parent_layer Hcl
  end.

(** [x] is not below [g]: follow the parents of [x] up to the top level or
    to a node of the initial scene. *)
Ltac climb Hcl :=
  first
  [ apply under_fuel_root; assumption
  | eapply under_fuel_up; [eassumption | solve_ne | climb Hcl]
  | eapply under_fuel_old; [exact Hcl | assumption | solve [eauto] | assumption]
  | apply under_fuel_root; lookup_chain;
    first [reflexivity | by apply (closed_None _ _ _ Hcl)]
  | eapply under_fuel_old; [exact Hcl | assumption | solve [eauto] | prove_agrees]
  | eapply under_fuel_up; [lookup_chain; reflexivity | solve_ne | climb Hcl] ].
Ltac not_below Hcl := apply is_under_never; climb Hcl.

Ltac child_of :=
  apply is_under_child; first [assumption | lookup_chain; reflexivity].

Ltac place_step Hcl :=
  first
  [ rewrite lookup_insert_eq
  | rewrite lookup_insert_ne by solve_ne
  | rewrite lookup_shift_subtree_out by not_below Hcl
  | rewrite lookup_shift_subtree_in
      by child_of
  | match goal with HV : ?V = _ |- context [?V !! _] => is_var V; rewrite HV end ].
Ltac place_chain Hcl := repeat place_step Hcl.

Ltac place_step_in Hcl H :=
  first
  [ rewrite lookup_insert_eq in H
  | rewrite lookup_insert_ne in H by solve_ne
  | rewrite lookup_shift_subtree_out in H by not_below Hcl
  | rewrite lookup_shift_subtree_in in H
      by child_of
  | match type of H with context [?V !! _] =>
      is_var V; match goal with HV : V = _ |- _ => rewrite HV in H end end ].
Ltac place_chain_in Hcl H := repeat place_step_in Hcl H.

Lemma under_fuel_kept N0 P0 P g x :
  map_Forall (fun x p => is_Some (N0 !! x) ∧ is_Some (N0 !! p)) P0 →
  N0 !! g = None → is_Some (N0 !! x) → keeps N0 P0 P →
  ∀ f, Maya.is_under_fuel P f x g = false.
Proof. apply under_fuel_old. Qed.

Lemma keeps_refl {V} N0 (M0 : gmap string V) : keeps N0 M0 M0.
Proof. by intros y _. Qed.

Lemma keeps_nodes_refl N0 : keeps_nodes N0 N0.
Proof. by intros y nd Hy _. Qed.

Lemma keeps_attrs_refl N0 A0 : keeps_attrs N0 A0 A0.
Proof. by intros y nd a _ _. Qed.

(** The constraint node that takes a new driver is new or an orient
    constraint: it is none of the plain nodes. *)
Lemma slot_not_plain C N d c ds new y nd :
  Maya.orient_slot C N d = Some (c, ds, new) →
  N !! y = Some nd → plain nd → c ≠ y.
Proof.
  unfold Maya.orient_slot. intros H Hy Hp ->.
  repeat case_match; simplify_eq; done.
Qed.

Lemma plug_ne (a b x y : string) : a ≠ b → (a, x) ≠ (b, y).
Proof. congruence. Qed.

(** One update of a map leaves the nodes of the initial scene alone. *)
Ltac keep_layer Hcl :=
  let y := fresh "y" in let nd := fresh "nd" in let Hy := fresh "Hy" in
  intros y [nd Hy];
  match goal with HV : ?V = _ |- ?V !! _ = _ => rewrite HV end;
  repeat first
    [ rewrite lookup_insert_ne by solve_ne
    | rewrite lookup_if_insert_ne by solve_ne
    | rewrite lookup_shift_subtree_out
        by (apply is_under_never; eapply under_fuel_kept;
            [exact Hcl | assumption | solve [eauto] | assumption]) ];
  first
  [ reflexivity
  | match goal with K : keeps _ _ ?W |- ?W !! _ = _ => apply K; eauto end ].

Ltac cache_keeps Hcl N0 M0 :=
  pose proof (keeps_refl N0 M0);
  repeat match reverse goal with
  | HV : ?V = _ |- _ =>
      is_var V;
      lazymatch type of V with
      | gmap string ?T =>
          lazymatch type of M0 with gmap string T => idtac end
      end;
      lazymatch goal with
      | K : keeps N0 M0 V |- _ => fail
      | _ => idtac
      end;
      assert (keeps N0 M0 V) by keep_layer Hcl
  end.

(** A name differs from [y], a plain node of the initial scene. *)
Ltac ne_plain y :=
  first
  [ solve_ne
  | match goal with
    | S : Maya.orient_slot _ ?N _ = Some (?c, _, _), K : keeps_nodes _ ?N
      |- ?c ≠ y =>
        eapply (slot_not_plain _ _ _ _ _ _ _ _ S); [eapply K; eassumption|assumption]
    end ].

Ltac keep_nodes_layer :=
  let y := fresh "y" in let nd := fresh "nd" in
  let Hy := fresh "Hy" in let Hp := fresh "Hp" in
  intros y nd Hy Hp;
  match goal with HV : ?V = _ |- ?V !! _ = _ => rewrite HV end;
  repeat rewrite lookup_insert_ne by ne_plain y;
  match goal with K : keeps_nodes _ ?W |- ?W !! _ = _ => by eapply K end.

Ltac cache_keeps_nodes N0 :=
  pose proof (keeps_nodes_refl N0);
  repeat match reverse goal with
  | HV : ?V = _ |- _ =>
      is_var V;
      lazymatch type of V with gmap string Node => idtac end;
      lazymatch goal with
      | K : keeps_nodes N0 V |- _ => fail
      | _ => idtac
      end;
      assert (keeps_nodes N0 V) by keep_nodes_layer
  end.

Ltac keep_attrs_layer :=
  let y := fresh "y" in let nd := fresh "nd" in let a := fresh "a" in
  let Hy := fresh "Hy" in let Hp := fresh "Hp" in
  intros y nd a Hy Hp;
  match goal with HV : ?V = _ |- ?V !! _ = _ => rewrite HV end;
  repeat first
    [ rewrite lookup_insert_ne by (apply plug_ne; ne_plain y)
    | rewrite lookup_alter_ne by (apply plug_ne; ne_plain y)
    | rewrite lookup_if_insert_ne by (intros _; apply plug_ne; ne_plain y) ];
  match goal with K : keeps_attrs _ _ ?W |- ?W !! _ = _ => by eapply K end.

Ltac cache_keeps_attrs N0 A0 :=
  pose proof (keeps_attrs_refl N0 A0);
  repeat match reverse goal with
  | HV : ?V = _ |- _ =>
      is_var V;
      lazymatch type of V with gmap Plug Attr => idtac end;
      lazymatch goal with
      | K : keeps_attrs N0 A0 V |- _ => fail
      | _ => idtac
      end;
      assert (keeps_attrs N0 A0 V) by keep_attrs_layer
  end.

(** New groups of new nodes are at top level, at the origin. *)
Ltac simplify_tops Hcl :=
  repeat match goal with
  | HV : _ = Maya.under_parent (?P !! ?c) ?n ?M |- _ =>
      let Hp := fresh "Hp" in
      assert (P !! c = None) as Hp
        by (lookup_chain; first [done | by apply (closed_None _ _ _ Hcl)]);
      rewrite Hp in HV; cbn [Maya.under_parent] in HV;
      repeat match goal with
      | HX : context [Maya.origin_of _ (P !! c)] |- _ => rewrite Hp in HX
      end;
      clear Hp
  end.

(** The transforms and shapes the host read when it placed, scaled or froze
    a node. *)
Ltac resolve_xforms Hcl :=
  repeat match goal with
  | G : ?V !! ?k = Some ?x, K : keeps _ ?X0 ?V, H0 : ?X0 !! ?k = Some _ |- _ =>
      is_var x; rewrite (K k) in G by eauto;
      rewrite H0 in G; injection G as G; subst x
  | G : ?V !! ?k = Some ?x |- _ =>
      is_var x; is_var V;
      lazymatch type of x with Xform => idtac end;
      lazymatch goal with HV : V = _ |- _ => idtac end;
      place_chain_in Hcl G; injection G as G; subst x
  | G : ?V !! ?k = Some (Transform ?x) |- _ =>
      is_var x; is_var V;
      lazymatch goal with HV : V = _ |- _ => idtac end;
      lookup_chain_in G; injection G as G; subst x
  end.

Lemma zero_shift p : Vec.zero +v (p -v Vec.zero) = p.
Proof.
  destruct p as [a b c]. unfold Vec.add, Vec.sub, Vec.zero. cbn.
  f_equal; lra.
Qed.

Ltac origins :=
  unfold Maya.origin_of, Maya.identity_at, Maya.shift;
  cbn [default mbind option_bind fmap option_fmap option_map
       translation rotation scaling];
  rewrite ?zero_shift.

(** The outcome of a build on a scene with a closed parent map where the
    three selected joints are nodes with a transform: what the build leaves
    alone and where it puts the controls. *)
Lemma build_outcome self s r m e rest xr xm xe :
  selected s = r :: m :: e :: rest → succeeds self s → closed s →
  is_Some (nodes s !! r) → is_Some (nodes s !! m) → is_Some (nodes s !! e) →
  xforms s !! r = Some xr → xforms s !! m = Some xm → xforms s !! e = Some xe →
  let sf := built self s in
  let on (x : Xform) := mkXform (translation x) (rotation x) (mkMVector 1 1 1) in
  (keeps (nodes s) (parents s) (parents sf) ∧
   keeps (nodes s) (xforms s) (xforms sf) ∧
   keeps_nodes (nodes s) (nodes sf) ∧
   keeps_attrs (nodes s) (attrs s) (attrs sf)) ∧
  (xforms sf !! Names.grp (Names.fkCtrl r) = Some (on xr) ∧
   xforms sf !! Names.grp (Names.fkCtrl m) = Some (on xm) ∧
   xforms sf !! Names.grp (Names.fkCtrl e) = Some (on xe) ∧
   Maya.position sf (Names.fkCtrl r) = Some (translation xr) ∧
   Maya.position sf (Names.fkCtrl m) = Some (translation xm) ∧
   Maya.position sf (Names.fkCtrl e) = Some (translation xe)) ∧
  (xforms sf !! Names.grp (Names.ikCtrl e) = Some (on xe) ∧
   xforms sf !! Names.ikCtrl e =
     Some (mkXform (translation xe) Vec.zero (mkMVector 1 1 1)) ∧
   xforms sf !! Names.handle e = Some (Maya.identity_at (translation xe)) ∧
   nodes sf !! Names.ikCtrl e =
     Some (Transform (Curve 1 (scaledBox (IZR (controllerSize self))) (knots 22)))).
Proof.
  intros Hsel Hok Hcl [nr Nr] [nm Nm] [ne Ne] Hr Hm He sf on. subst sf on.
  start Hsel Hok sf H.
  destruct s as [sel N0 P0 X0 A0 C0 E0 rp].
  unfold closed in Hcl.
  cbn [nodes parents xforms attrs] in Hcl, Nr, Nm, Ne, Hr, Hm, He |- *.
  rig_exec H. tidy. proj.
  simplify_tops Hcl. simplify_top Hcl.
  cache_keeps Hcl N0 P0. cache_keeps Hcl N0 X0.
  cache_keeps_nodes N0. cache_keeps_attrs N0 A0.
  (cache_parent Hcl ("ac_fk_" +:+ r); cache_parent Hcl (("ac_fk_" +:+ r) +:+ "_grp");
  cache_parent Hcl ("ac_fk_" +:+ m); cache_parent Hcl (("ac_fk_" +:+ m) +:+ "_grp");
  cache_parent Hcl ("ac_fk_" +:+ e); cache_parent Hcl (("ac_fk_" +:+ e) +:+ "_grp");
  cache_parent Hcl ("ac_ik_" +:+ e); cache_parent Hcl (("ac_ik_" +:+ e) +:+ "_grp");
  cache_parent Hcl ("ikHandle_" +:+ e)).
  resolve_xforms Hcl.
  split; [by repeat split|].
  unfold Maya.position. proj.
  split; [|split; [|split; [|split]]].
  - repeat split; place_chain Hcl; origins; reflexivity.
  - place_chain Hcl. reflexivity.
  - place_chain Hcl. origins. reflexivity.
  - place_chain Hcl. reflexivity.
  - lookup_chain.
    match goal with
    | S : Maya.orient_slot _ ?N _ = Some (?c, _, _) |- <[?c:=_]> ?N !! ?y = _ =>
        rewrite (lookup_insert_ne N c y)
          by (eapply (slot_not_plain _ _ _ _ _ _ _ _ S);
              [lookup_chain; reflexivity | exact I])
    end.
    lookup_chain. origins. cbn [Maya.freeze scaling translation].
    apply (f_equal (λ p, Some (Transform (Curve 1 p (knots 22))))).
    unfold scaledBox. apply list_fmap_ext. intros _ [a b c] _.
    unfold Vec.add, Vec.sub, Vec.zero. cbn. f_equal; lra.
Qed.

(** X2: The FK controls sit on their joints: the group of each FK control takes
    the world position and rotation of its joint (with unit scale), and the
    control, which is created at the origin inside its group, ends at the
    position of the joint; the later steps of the build move none of them. *)
Theorem fk_controls_at_joints self s r m e rest xr xm xe :
  selected s = r :: m :: e :: rest → succeeds self s → closed s →
  is_Some (nodes s !! r) → is_Some (nodes s !! m) → is_Some (nodes s !! e) →
  xforms s !! r = Some xr → xforms s !! m = Some xm → xforms s !! e = Some xe →
  let sf := built self s in
  ∀ j xj, (j, xj) ∈ [(r, xr); (m, xm); (e, xe)] →
    xforms sf !! Names.grp (Names.fkCtrl j) =
      Some (mkXform (translation xj) (rotation xj) (mkMVector 1 1 1)) ∧
    Maya.position sf (Names.fkCtrl j) = Some (translation xj).
Proof.
  intros Hsel Hok Hcl Nr Nm Ne Hr Hm He sf j xj Hj.
  destruct (build_outcome self s r m e rest xr xm xe Hsel Hok Hcl Nr Nm Ne Hr Hm He)
    as (_ & (G1 & G2 & G3 & Q1 & Q2 & Q3) & _).
  rewrite !elem_of_cons, elem_of_nil in Hj.
  destruct Hj as [[= -> ->]|[[= -> ->]|[[= -> ->]|[]]]]; by split.
Qed.

Lemma fk_controls_at_joints_witness :
  xforms (built Example.w15 Example.arm) !! Names.grp (Names.fkCtrl "elbow") =
    Some (mkXform (translation (Example.jointAt 5 0 0))
                  (rotation (Example.jointAt 5 0 0)) (mkMVector 1 1 1)) ∧
  Maya.position (built Example.w15 Example.arm) (Names.fkCtrl "elbow") =
    Some (translation (Example.jointAt 5 0 0)).
Proof.
  apply (fk_controls_at_joints Example.w15 Example.arm "shoulder" "elbow" "wrist" []
           (Example.jointAt 0 0 0) (Example.jointAt 5 0 0) (Example.jointAt 10 0 0)).
  - reflexivity.
  - vm_compute. reflexivity.
  - unfold closed. apply (bool_decide_unpack _). vm_compute. exact I.
  - exists Joint. reflexivity.
  - exists Joint. reflexivity.
  - exists Joint. reflexivity.
  - reflexivity.
  - reflexivity.
  - reflexivity.
  - apply list_elem_of_further, list_elem_of_here.
Defined.

(** X3: The IK end control, its group and the IK handle sit on the end joint:
    the group takes the position and rotation of the end joint, the control
    (frozen at unit scale) and the handle end at its position. *)
Theorem ik_control_at_end_joint self s r m e rest xr xm xe :
  selected s = r :: m :: e :: rest → succeeds self s → closed s →
  is_Some (nodes s !! r) → is_Some (nodes s !! m) → is_Some (nodes s !! e) →
  xforms s !! r = Some xr → xforms s !! m = Some xm → xforms s !! e = Some xe →
  let sf := built self s in
  xforms sf !! Names.grp (Names.ikCtrl e) =
    Some (mkXform (translation xe) (rotation xe) (mkMVector 1 1 1)) ∧
  xforms sf !! Names.ikCtrl e =
    Some (mkXform (translation xe) Vec.zero (mkMVector 1 1 1)) ∧
  xforms sf !! Names.handle e = Some (Maya.identity_at (translation xe)).
Proof.
  intros Hsel Hok Hcl Nr Nm Ne Hr Hm He sf.
  destruct (build_outcome self s r m e rest xr xm xe Hsel Hok Hcl Nr Nm Ne Hr Hm He)
    as (_ & _ & (G1 & G2 & G3 & _)).
  by repeat split.
Qed.

Lemma ik_control_at_end_joint_witness :
  let sf := built Example.w15 Example.arm in
  xforms sf !! Names.grp (Names.ikCtrl "wrist") =
    Some (mkXform (translation (Example.jointAt 10 0 0))
                  (rotation (Example.jointAt 10 0 0)) (mkMVector 1 1 1)) ∧
  xforms sf !! Names.ikCtrl "wrist" =
    Some (mkXform (translation (Example.jointAt 10 0 0)) Vec.zero (mkMVector 1 1 1)) ∧
  xforms sf !! Names.handle "wrist" =
    Some (Maya.identity_at (translation (Example.jointAt 10 0 0))).
Proof.
  apply (ik_control_at_end_joint Example.w15 Example.arm "shoulder" "elbow" "wrist" []
           (Example.jointAt 0 0 0) (Example.jointAt 5 0 0)).
  - reflexivity.
  - vm_compute. reflexivity.
  - unfold closed. apply (bool_decide_unpack _). vm_compute. exact I.
  - exists Joint. reflexivity.
  - exists Joint. reflexivity.
  - exists Joint. reflexivity.
  - reflexivity.
  - reflexivity.
  - reflexivity.
Defined.

(** X4: The IK end control is the box of the source scaled by the controller
    size: [scale] and [makeIdentity] leave a degree-1 curve through the 22
    points of the box, each coordinate multiplied by the size (so a cube of
    side [controllerSize]), with knots 0 to 21. *)
Theorem ik_control_is_scaled_box self s r m e rest xr xm xe :
  selected s = r :: m :: e :: rest → succeeds self s → closed s →
  is_Some (nodes s !! r) → is_Some (nodes s !! m) → is_Some (nodes s !! e) →
  xforms s !! r = Some xr → xforms s !! m = Some xm → xforms s !! e = Some xe →
  nodes (built self s) !! Names.ikCtrl e =
    Some (Transform (Curve 1 (scaledBox (IZR (controllerSize self))) (knots 22))) ∧
  length (scaledBox (IZR (controllerSize self))) = 22%nat ∧
  ∀ q, q ∈ scaledBox (IZR (controllerSize self)) →
    ∀ c, c ∈ [vx q; vy q; vz q] →
      c = 0.5 * IZR (controllerSize self) ∨ c = - 0.5 * IZR (controllerSize self).
Proof.
  intros Hsel Hok Hcl Nr Nm Ne Hr Hm He.
  destruct (build_outcome self s r m e rest xr xm xe Hsel Hok Hcl Nr Nm Ne Hr Hm He)
    as (_ & _ & (_ & _ & _ & G)).
  split; [exact G|]. split; [reflexivity|].
  intros q Hq c Hc. unfold scaledBox, boxPoints in Hq.
  cbn [fmap list_fmap] in Hq. rewrite !elem_of_cons, elem_of_nil in Hq.
  repeat (destruct Hq as [->|Hq]; [
    cbn [vx vy vz] in Hc; rewrite !elem_of_cons, elem_of_nil in Hc;
    destruct Hc as [->|[->|[->|[]]]]; lra|]).
  destruct Hq.
Qed.

Lemma ik_control_is_scaled_box_witness :
  nodes (built Example.w15 Example.arm) !! Names.ikCtrl "wrist" =
    Some (Transform (Curve 1 (scaledBox (IZR (controllerSize Example.w15)))
                           (knots 22))) ∧
  length (scaledBox (IZR (controllerSize Example.w15))) = 22%nat ∧
  ∀ q, q ∈ scaledBox (IZR (controllerSize Example.w15)) →
    ∀ c, c ∈ [vx q; vy q; vz q] →
      c = 0.5 * IZR (controllerSize Example.w15) ∨
      c = - 0.5 * IZR (controllerSize Example.w15).
Proof.
  apply (ik_control_is_scaled_box Example.w15 Example.arm "shoulder" "elbow" "wrist" []
           (Example.jointAt 0 0 0) (Example.jointAt 5 0 0) (Example.jointAt 10 0 0)).
  - reflexivity.
  - vm_compute. reflexivity.
  - unfold closed. apply (bool_decide_unpack _). vm_compute. exact I.
  - exists Joint. reflexivity.
  - exists Joint. reflexivity.
  - exists Joint. reflexivity.
  - reflexivity.
  - reflexivity.
  - reflexivity.
Defined.

(** ** What the build leaves alone *)

(** X5: The build only adds to the scene: every node of the initial scene keeps
    its parent and its transform (no joint is moved), and every node of the
    initial scene that is not an orient constraint is still the node it was,
    with the attributes it had. *)
Theorem build_keeps_scene self s r m e rest xr xm xe :
  selected s = r :: m :: e :: rest → succeeds self s → closed s →
  is_Some (nodes s !! r) → is_Some (nodes s !! m) → is_Some (nodes s !! e) →
  xforms s !! r = Some xr → xforms s !! m = Some xm → xforms s !! e = Some xe →
  let sf := built self s in
  ∀ y nd, nodes s !! y = Some nd →
    parents sf !! y = parents s !! y ∧
    xforms sf !! y = xforms s !! y ∧
    (plain nd → nodes sf !! y = Some nd ∧ ∀ a, attrs sf !! (y, a) = attrs s !! (y, a)).
Proof.
  intros Hsel Hok Hcl Nr Nm Ne Hr Hm He sf y nd Hy.
  destruct (build_outcome self s r m e rest xr xm xe Hsel Hok Hcl Nr Nm Ne Hr Hm He)
    as ((K1 & K2 & K3 & K4) & _).
  split; [by apply K1|]. split; [by apply K2|].
  intros Hp. split; [by apply K3|]. intros a. by eapply K4.
Qed.

Lemma build_keeps_scene_witness :
  parents (built Example.w15 Example.arm) !! "hand" = parents Example.arm !! "hand" ∧
  xforms (built Example.w15 Example.arm) !! "hand" = xforms Example.arm !! "hand" ∧
  (plain Joint →
   nodes (built Example.w15 Example.arm) !! "hand" = Some Joint ∧
   ∀ a, attrs (built Example.w15 Example.arm) !! ("hand", a) =
        attrs Example.arm !! ("hand", a)).
Proof.
  apply (build_keeps_scene Example.w15 Example.arm "shoulder" "elbow" "wrist" []
           (Example.jointAt 0 0 0) (Example.jointAt 5 0 0) (Example.jointAt 10 0 0)).
  - reflexivity.
  - vm_compute. reflexivity.
  - unfold closed. apply (bool_decide_unpack _). vm_compute. exact I.
  - exists Joint. reflexivity.
  - exists Joint. reflexivity.
  - exists Joint. reflexivity.
  - reflexivity.
  - reflexivity.
  - reflexivity.
  - reflexivity.
Defined.


(** ** The nodes of the rig *)

Ltac node_step :=
  first
  [ match goal with
    | S : Maya.orient_slot _ ?N _ = Some (?c, _, _)
      |- context [<[?c:=_]> ?M !! ?y] =>
        rewrite (lookup_insert_ne M c y)
          by (eapply (slot_not_plain _ _ _ _ _ _ _ _ S);
              [repeat node_step; reflexivity | exact I])
    end
  | lookup_step ].
Ltac node_chain := repeat node_step.

Ltac among :=
  first [apply list_elem_of_here | apply list_elem_of_further; among].

(** The nodes of the final scene. *)
Lemma build_nodes self s r m e rest :
  selected s = r :: m :: e :: rest → succeeds self s →
  let sf := built self s in
  let group := Some (Transform NoShape) in
  (nodes sf !! Names.fkCtrl r =
     Some (Transform (Circle (IZR (controllerSize self)) (mkMVector 1 0 0))) ∧
   nodes sf !! Names.fkCtrl m =
     Some (Transform (Circle (IZR (controllerSize self)) (mkMVector 1 0 0))) ∧
   nodes sf !! Names.fkCtrl e =
     Some (Transform (Circle (IZR (controllerSize self)) (mkMVector 1 0 0)))) ∧
  (nodes sf !! Names.grp (Names.fkCtrl r) = group ∧
   nodes sf !! Names.grp (Names.fkCtrl m) = group ∧
   nodes sf !! Names.grp (Names.fkCtrl e) = group ∧
   nodes sf !! Names.grp (Names.ikCtrl e) = group ∧
   nodes sf !! Names.grp (Names.ikCtrl m) = group ∧
   nodes sf !! Names.grp (Names.blendCtrl r) = group ∧
   nodes sf !! Names.topGrp r = group) ∧
  ((∃ d p k, nodes sf !! Names.ikCtrl e = Some (Transform (Curve d p k))) ∧
   nodes sf !! Names.handle e = Some (IkHandle r e "ikRPsolver" (rpSolver s r e)) ∧
   nodes sf !! Names.ikCtrl m = Some (Transform Locator) ∧
   nodes sf !! Names.poleNode (Names.handle e) =
     Some (PoleVectorConstraint (Names.ikCtrl m) (Names.handle e)) ∧
   nodes sf !! Names.blendCtrl r =
     Some (Transform (Curve 1 arrowPoints (knots 13)))) ∧
  Forall (λ n, nodes s !! n = None) (created r m e) ∧
  NoDup (created r m e) ∧
  (∀ y nd, nodes sf !! y = Some nd →
     nodes s !! y = Some nd ∨ y ∈ created r m e ∨
     ∃ d ds, nd = OrientConstraint d ds).
Proof.
  intros Hsel Hok sf group. subst sf group. unfold created.
  start Hsel Hok sf H.
  destruct s as [sel N0 P0 X0 A0 C0 E0 rp]. cbn [nodes rpSolver].
  rig_exec H. tidy. proj.
  split; [repeat split; node_chain; reflexivity|].
  split; [repeat split; node_chain; reflexivity|].
  split.
  { split; [|repeat split; node_chain; reflexivity].
    node_chain.
    match goal with
    | G : _ !! ("ac_ik_" +:+ e) = Some (Transform ?sh) |- _ =>
        is_var sh; lookup_chain_in G; injection G as G; subst sh
    end.
    cbn [Maya.freeze]. by eexists _, _, _. }
  split; [repeat constructor; assumption|].
  split.
  { repeat (apply NoDup_cons_2;
      [rewrite ?not_elem_of_cons; repeat split; try solve_ne; apply not_elem_of_nil|]).
    apply NoDup_nil_2. }
  intros y nd Hy.
  node_cases Hy ltac:(fun Hv =>
    first [ right; left; among
          | right; right; rewrite <- Hv; by eexists _, _ ]).
  by left.
Qed.

(** X6: The build adds fifteen nodes named after the selected joints, all new and
    pairwise different: three circles and seven groups, the IK control
    curve, the rotate-plane handle from the root joint to the end joint, the
    pole locator with its pole-vector constraint, and the blend control
    curve.  Every other node of the final scene was in the initial scene or
    is an orient constraint. *)
Theorem build_inventory self s r m e rest :
  selected s = r :: m :: e :: rest → succeeds self s →
  let sf := built self s in
  let group := Some (Transform NoShape) in
  (Forall (λ n, nodes s !! n = None) (created r m e) ∧
   NoDup (created r m e) ∧ length (created r m e) = 15%nat) ∧
  (∀ j, j ∈ [r; m; e] →
     nodes sf !! Names.fkCtrl j =
       Some (Transform (Circle (IZR (controllerSize self)) (mkMVector 1 0 0)))) ∧
  Forall (λ g, nodes sf !! g = group)
    [Names.grp (Names.fkCtrl r); Names.grp (Names.fkCtrl m);
     Names.grp (Names.fkCtrl e); Names.grp (Names.ikCtrl e);
     Names.grp (Names.ikCtrl m); Names.grp (Names.blendCtrl r); Names.topGrp r] ∧
  ((∃ d p k, nodes sf !! Names.ikCtrl e = Some (Transform (Curve d p k))) ∧
   nodes sf !! Names.handle e = Some (IkHandle r e "ikRPsolver" (rpSolver s r e)) ∧
   nodes sf !! Names.ikCtrl m = Some (Transform Locator) ∧
   nodes sf !! Names.poleNode (Names.handle e) =
     Some (PoleVectorConstraint (Names.ikCtrl m) (Names.handle e)) ∧
   nodes sf !! Names.blendCtrl r =
     Some (Transform (Curve 1 arrowPoints (knots 13)))) ∧
  (∀ y nd, nodes sf !! y = Some nd →
     nodes s !! y = Some nd ∨ y ∈ created r m e ∨
     ∃ d ds, nd = OrientConstraint d ds).
Proof.
  intros Hsel Hok sf group.
  destruct (build_nodes self s r m e rest Hsel Hok)
    as ((C1 & C2 & C3) & (G1 & G2 & G3 & G4 & G5 & G6 & G7) & HK & Hnew & Hnd & Hall).
  split; [by repeat split|]. split.
  { intros j Hj. rewrite !elem_of_cons, elem_of_nil in Hj.
    by destruct Hj as [->|[->|[->|[]]]]. }
  split; [by repeat constructor|]. by split.
Qed.

Lemma build_inventory_witness :
  let sf := built Example.w15 Example.arm in
  let group := Some (Transform NoShape) in
  (Forall (λ n, nodes Example.arm !! n = None) (created "shoulder" "elbow" "wrist") ∧
   NoDup (created "shoulder" "elbow" "wrist") ∧
   length (created "shoulder" "elbow" "wrist") = 15%nat) ∧
  (∀ j, j ∈ ["shoulder"; "elbow"; "wrist"] →
     nodes sf !! Names.fkCtrl j =
       Some (Transform (Circle (IZR (controllerSize Example.w15))
                               (mkMVector 1 0 0)))) ∧
  Forall (λ g, nodes sf !! g = group)
    [Names.grp (Names.fkCtrl "shoulder"); Names.grp (Names.fkCtrl "elbow");
     Names.grp (Names.fkCtrl "wrist"); Names.grp (Names.ikCtrl "wrist");
     Names.grp (Names.ikCtrl "elbow"); Names.grp (Names.blendCtrl "shoulder");
     Names.topGrp "shoulder"] ∧
  ((∃ d p k, nodes sf !! Names.ikCtrl "wrist" = Some (Transform (Curve d p k))) ∧
   nodes sf !! Names.handle "wrist" =
     Some (IkHandle "shoulder" "wrist" "ikRPsolver"
                    (rpSolver Example.arm "shoulder" "wrist")) ∧
   nodes sf !! Names.ikCtrl "elbow" = Some (Transform Locator) ∧
   nodes sf !! Names.poleNode (Names.handle "wrist") =
     Some (PoleVectorConstraint (Names.ikCtrl "elbow") (Names.handle "wrist")) ∧
   nodes sf !! Names.blendCtrl "shoulder" =
     Some (Transform (Curve 1 arrowPoints (knots 13)))) ∧
  (∀ y nd, nodes sf !! y = Some nd →
     nodes Example.arm !! y = Some nd ∨ y ∈ created "shoulder" "elbow" "wrist" ∨
     ∃ d ds, nd = OrientConstraint d ds).
Proof.
  apply (build_inventory Example.w15 Example.arm "shoulder" "elbow" "wrist" []).
  - reflexivity.
  - vm_compute. reflexivity.
Defined.

(** ** The size of the controls *)

(** X7: [ControllerSizeChanged] stores the value of the slider and shows it in
    the label; the value stored last is the radius of the three FK circles
    (normal along x) of the next build, whatever the size was before. *)
Theorem ControllerSizeChanged_sets_radius ui v s r m e rest :
  let ui' := ControllerSizeChanged ui v in
  selected s = r :: m :: e :: rest → succeeds (widget ui') s →
  controllerSize (widget ui') = v ∧
  sizeDisplayLabel ui' = pretty v ∧
  ∀ j, j ∈ [r; m; e] →
    nodes (built (widget ui') s) !! Names.fkCtrl j =
      Some (Transform (Circle (IZR v) (mkMVector 1 0 0))).
Proof.
  intros ui' Hsel Hok. split; [reflexivity|]. split; [reflexivity|].
  destruct (build_nodes (widget ui') s r m e rest Hsel Hok) as ((C1 & C2 & C3) & _).
  intros j Hj. rewrite !elem_of_cons, elem_of_nil in Hj.
  by destruct Hj as [->|[->|[->|[]]]].
Qed.

Lemma ControllerSizeChanged_sets_radius_witness :
  let ui' := ControllerSizeChanged LimbRiggerUI_init 20 in
  controllerSize (widget ui') = 20%Z ∧
  sizeDisplayLabel ui' = pretty 20%Z ∧
  ∀ j, j ∈ ["shoulder"; "elbow"; "wrist"] →
    nodes (built (widget ui') Example.arm) !! Names.fkCtrl j =
      Some (Transform (Circle (IZR 20) (mkMVector 1 0 0))).
Proof.
  apply (ControllerSizeChanged_sets_radius LimbRiggerUI_init 20 Example.arm
           "shoulder" "elbow" "wrist" []).
  - reflexivity.
  - vm_compute. reflexivity.
Defined.

(** ** The blend attribute *)

Lemma blend_attr_fresh self s r m e rest :
  selected s = r :: m :: e :: rest → succeeds self s →
  attrs (built self s) !! Names.blendAttr r =
    Some (mkAttr (Maya.clamp (Some (0, 1)) 0) (Some (0, 1))).
Proof.
  intros Hsel Hok.
  start Hsel Hok sf H.
  destruct s as [sel N0 P0 X0 A0 C0 E0 rp].
  rig_exec H. tidy. proj.
  attr_chain. reflexivity.
Qed.

Lemma with_blend_fresh self s r m e rest :
  selected s = r :: m :: e :: rest → succeeds self s →
  with_blend r 0 (built self s) = built self s.
Proof.
  intros Hsel Hok. pose proof (blend_attr_fresh self s r m e rest Hsel Hok) as Ha.
  unfold with_blend, Maya.store, set_attrs.
  destruct (built self s) as [sel N P X A C E rp]. cbn [attrs] in Ha |- *.
  f_equal. apply map_eq. intros p.
  destruct (decide (p = Names.blendAttr r)) as [->|Hne].
  - rewrite lookup_alter_eq, Ha. reflexivity.
  - by rewrite lookup_alter_ne.
Qed.

(** X8: The blend attribute is created with range [0, 1] and value 0, so a rig
    that has just been built is FK-driven: the FK group is shown and the FK
    weight is 1; the IK control group and the pole group are hidden, and
    [ikBlend] and the IK weight are 0. *)
Theorem fresh_rig_is_fk self s r m e rest :
  selected s = r :: m :: e :: rest → succeeds self s →
  connections s !! e = None →
  let sf := built self s in
  attrs sf !! Names.blendAttr r = Some (mkAttr 0 (Some (0, 1))) ∧
  (λ x, Maya.attr_value sf (target x)) <$> rigExpressions r m e =
    [Some 1; Some 0; Some 0; Some 0; Some 1; Some 0].
Proof.
  intros Hsel Hok Hfree sf. subst sf. split.
  - rewrite (blend_attr_fresh self s r m e rest Hsel Hok).
    by rewrite clamp_unit by lra.
  - destruct (blend_wiring self s r m e rest Hsel Hok Hfree) as (_ & _ & _ & Hv).
    specialize (Hv 0). rewrite (with_blend_fresh self s r m e rest Hsel Hok) in Hv.
    rewrite Hv. cbn [fmap list_fmap rigExpressions formula].
    rewrite !clamp_unit by lra.
    repeat (apply (f_equal2 cons)); try reflexivity; f_equal; lra.
Qed.

Lemma fresh_rig_is_fk_witness :
  let sf := built Example.w15 Example.arm in
  attrs sf !! Names.blendAttr "shoulder" = Some (mkAttr 0 (Some (0, 1))) ∧
  (λ x, Maya.attr_value sf (target x)) <$> rigExpressions "shoulder" "elbow" "wrist" =
    [Some 1; Some 0; Some 0; Some 0; Some 1; Some 0].
Proof.
  apply (fresh_rig_is_fk Example.w15 Example.arm "shoulder" "elbow" "wrist" []).
  - reflexivity.
  - vm_compute. reflexivity.
  - vm_compute. reflexivity.
Defined.

(** X9: Whatever value is stored in the blend attribute, in its range or not,
    the six driven values stay in [0, 1] and the weights of the end joint's
    two drivers add up to 1: the value is clamped to the range the attribute
    was created with, so a value of 1 or more gives the pure IK rig and a
    value of 0 or less the pure FK rig. *)
Theorem blend_is_clamped self s r m e rest b :
  selected s = r :: m :: e :: rest → succeeds self s →
  connections s !! e = None →
  let sf := with_blend r b (built self s) in
  let c := Maya.clamp (Some (0, 1)) b in
  (λ x, Maya.attr_value sf (target x)) <$> rigExpressions r m e =
    [Some (1 - c); Some c; Some c; Some c; Some (1 - c); Some c] ∧
  0 <= c <= 1 ∧ (1 - c) + c = 1 ∧
  (b <= 0 → c = 0) ∧ (1 <= b → c = 1).
Proof.
  intros Hsel Hok Hfree sf c. subst sf c.
  destruct (blend_wiring self s r m e rest Hsel Hok Hfree) as (_ & _ & _ & Hv).
  split; [rewrite Hv; reflexivity|].
  unfold Maya.clamp, Rmax, Rmin.
  repeat destruct (Rle_dec _ _); repeat split; intros; lra.
Qed.

Lemma blend_is_clamped_witness :
  let sf := with_blend "shoulder" 2 (built Example.w15 Example.arm) in
  let c := Maya.clamp (Some (0, 1)) 2 in
  (λ x, Maya.attr_value sf (target x)) <$> rigExpressions "shoulder" "elbow" "wrist" =
    [Some (1 - c); Some c; Some c; Some c; Some (1 - c); Some c] ∧
  0 <= c <= 1 ∧ (1 - c) + c = 1 ∧
  (2 <= 0 → c = 0) ∧ (1 <= 2 → c = 1).
Proof.
  apply (blend_is_clamped Example.w15 Example.arm "shoulder" "elbow" "wrist" [] 2).
  - reflexivity.
  - vm_compute. reflexivity.
  - vm_compute. reflexivity.
Defined.

(** * The trim sheet builder *)

Import TrimSheet.

Ltac uv_red :=
  unfold mbind, uvprog_bind; cbn [uv_bind uv_run uv_steps lookup list_lookup].
Ltac uv_red_in H :=
  unfold mbind, uvprog_bind in H;
  cbn [uv_bind uv_run uv_steps lookup list_lookup] in H.

Section UVRunFacts.
Context {St : Type} (h : @UVHandler St).

Lemma uv_run_bind {A B} (p : UVProg A) (f : A → UVProg B) s :
  uv_run h (uv_bind p f) s =
  match uv_run h p s with
  | (s', inr a) => uv_run h (f a) s'
  | (s', inl e) => (s', inl e)
  end.
Proof.
  revert s. induction p as [a|e|X c k IH]; intros s; [done..|].
  cbn. destruct (h X c s) as [s' [e|x]]; [done|apply IH].
Qed.

Lemma uv_steps_bind {A B} (p : UVProg A) (f : A → UVProg B) s :
  uv_steps h (uv_bind p f) s =
  uv_steps h p s ++
  match uv_run h p s with
  | (s', inr a) => uv_steps h (f a) s'
  | (s', inl e) => []
  end.
Proof.
  revert s. induction p as [a|e|X c k IH]; intros s; [done..|].
  cbn. destruct (h X c s) as [s' [e|x]]; [done|]. cbn. by rewrite IH.
Qed.

(** The loop of [GetShellBound] assigns [minU] only, and only queries. *)
Lemma boundStep_keeps uv minU maxU minV maxV s s' r :
  uv_run h (boundStep uv (minU, maxU, minV, maxV)) s = (s', inr r) →
  ∃ minU', r = (minU', maxU, minV, maxV).
Proof.
  unfold boundStep, call, index. cbn.
  destruct (h _ (polyEditUV_q uv) s) as [s1 [e|[|a [|b l]]]]; cbn; try done.
  all: intros [= <- <-]; eauto.
Qed.

Lemma boundStep_queries uv b s :
  Forall (λ st, edits (uv_cmd st) = false) (uv_steps h (boundStep uv b) s).
Proof.
  destruct b as [[[minU maxU] minV] maxV]. unfold boundStep, call, index. cbn.
  destruct (h _ (polyEditUV_q uv) s) as [s1 [e|[|a [|b l]]]]; cbn;
    repeat constructor.
Qed.

Lemma for_each_boundStep_keeps uvs minU maxU minV maxV s s' r :
  uv_run h (for_each uvs boundStep (minU, maxU, minV, maxV)) s = (s', inr r) →
  ∃ minU', r = (minU', maxU, minV, maxV).
Proof.
  revert minU s. induction uvs as [|uv uvs IH]; intros minU s; cbn [for_each].
  - intros [= <- <-]. eauto.
  - unfold mbind, uvprog_bind. rewrite uv_run_bind.
    destruct (uv_run h (boundStep uv _) s) as [s1 [e|b]] eqn:E; [done|].
    apply boundStep_keeps in E as [m ->]. apply IH.
Qed.

Lemma for_each_boundStep_queries uvs b s :
  Forall (λ st, edits (uv_cmd st) = false)
         (uv_steps h (for_each uvs boundStep b) s).
Proof.
  revert b s. induction uvs as [|uv uvs IH]; intros b s; cbn [for_each].
  - constructor.
  - unfold mbind, uvprog_bind. rewrite uv_steps_bind. apply Forall_app. split.
    + apply boundStep_queries.
    + destruct (uv_run h (boundStep uv b) s) as [s1 [e|b']]; [constructor|apply IH].
Qed.

(** What [GetShellBound] returns, in terms of what the host answered. *)
Lemma GetShellBound_inv self s s' r :
  uv_run h (GetShellBound self) s = (s', inr r) →
  ∃ s1 l s2 uv rest s3 u0 v0 more minU,
    h _ (polyListComponentConversion_toUV (shell self)) s = (s1, inr l) ∧
    h _ (ls_fl l) s1 = (s2, inr (uv :: rest)) ∧
    h _ (polyEditUV_q uv) s2 = (s3, inr (u0 :: v0 :: more)) ∧
    r = ([minU; v0], [u0; v0]).
Proof.
  unfold GetShellBound, call, index. intros H. uv_red_in H.
  destruct (h _ (polyListComponentConversion_toUV _) s) as [s1 [e|l]] eqn:E1; [done|].
  destruct (h _ (ls_fl l) s1) as [s2 [e|[|uv rest]]] eqn:E2; uv_red_in H; [done..|].
  destruct (h _ (polyEditUV_q uv) s2) as [s3 [e|[|u0 [|v0 more]]]] eqn:E3;
    uv_red_in H; [done..|].
  rewrite uv_run_bind in H.
  destruct (uv_run h (for_each _ _ _) s3) as [s4 [e|b]] eqn:E4; [done|].
  apply for_each_boundStep_keeps in E4 as [m ->]. cbn in H. injection H as <- <-.
  by exists s1, l, s2, uv, rest, s3, u0, v0, more, m.
Qed.

Lemma GetShellBound_queries self s :
  Forall (λ st, edits (uv_cmd st) = false) (uv_steps h (GetShellBound self) s).
Proof.
  unfold GetShellBound, call, index. uv_red.
  destruct (h _ (polyListComponentConversion_toUV _) s) as [s1 [e|l]];
    [repeat constructor|].
  constructor; [done|].
  destruct (h _ (ls_fl l) s1) as [s2 [e|[|uv rest]]]; uv_red; [repeat constructor..|].
  constructor; [done|].
  destruct (h _ (polyEditUV_q uv) s2) as [s3 [e|[|u0 [|v0 more]]]];
    uv_red; [repeat constructor..|].
  constructor; [done|].
  rewrite uv_steps_bind. apply Forall_app. split.
  - apply for_each_boundStep_queries.
  - destruct (uv_run h (for_each _ _ _) s3) as [s4 [e|[[[? ?] ?] ?]]]; constructor.
Qed.

Lemma GetShellSize_run self s :
  uv_run h (GetShellSize self) s =
  match uv_run h (GetShellBound self) s with
  | (s', inr (mn, mx)) =>
      match mx !! 1%nat, mn !! 1%nat, mx !! 0%nat, mn !! 0%nat with
      | Some a, Some b, Some c, Some d => (s', inr (c - d, a - b))
      | _, _, _, _ => (s', inl (Builtin IndexError))
      end
  | (s', inl e) => (s', inl e)
  end.
Proof.
  unfold GetShellSize, mbind, uvprog_bind. rewrite uv_run_bind.
  destruct (uv_run h (GetShellBound self) s) as [s' [e|[mn mx]]]; [done|].
  unfold index. by repeat (case_match; cbn).
Qed.

Lemma GetShellSize_steps self s :
  uv_steps h (GetShellSize self) s = uv_steps h (GetShellBound self) s.
Proof.
  unfold GetShellSize, mbind, uvprog_bind. rewrite uv_steps_bind.
  destruct (uv_run h (GetShellBound self) s) as [s' [e|[mn mx]]];
    [by rewrite app_nil_r|].
  unfold index. uv_red. repeat (case_match; uv_red); apply app_nil_r.
Qed.

End UVRunFacts.

Lemma filter_edits_queries {St} (l : list (@UVStep St)) :
  Forall (λ st, edits (uv_cmd st) = false) l →
  filter (λ st, edits (uv_cmd st) = true) l = [].
Proof.
  induction 1 as [|st l Hst _ IH]; [done|].
  rewrite filter_cons_False; [done|]. by rewrite Hst.
Qed.

(** ** The bounds of the shell *)

(** X10: The loop of [GetShellBound] assigns [minU] in each of its four tests and
    never [maxU], [minV] or [maxV]: whenever the method returns, on any host,
    the maximum is the first UV as the host answered it, and the V of the
    minimum is the V of the first UV. *)
Theorem GetShellBound_first_uv {St} (h : @UVHandler St) self s s' mn mx :
  uv_run h (GetShellBound self) s = (s', inr (mn, mx)) →
  ∃ s1 l s2 uv rest s3 u0 v0 more minU,
    h _ (polyListComponentConversion_toUV (shell self)) s = (s1, inr l) ∧
    h _ (ls_fl l) s1 = (s2, inr (uv :: rest)) ∧
    h _ (polyEditUV_q uv) s2 = (s3, inr (u0 :: v0 :: more)) ∧
    mn = [minU; v0] ∧ mx = [u0; v0].
Proof.
  intros H.
  destruct (GetShellBound_inv h _ _ _ _ H)
    as (s1 & l & s2 & uv & rest & s3 & u0 & v0 & more & minU & H1 & H2 & H3 & [= -> ->]).
  by exists s1, l, s2, uv, rest, s3, u0, v0, more, minU.
Qed.

Ltac uv_compare :=
  repeat match goal with
  | |- context [Rlt_dec ?a ?b] => destruct (Rlt_dec a b); try lra
  | |- context [Rgt_dec ?a ?b] => destruct (Rgt_dec a b); try lra
  | |- context [Req_dec_T ?a ?b] => destruct (Req_dec_T a b); try lra
  end.

Lemma pair_bound log :
  uv_run UVExample.host (GetShellBound UVExample.pair) log =
    (log, inr ([1; 0], [0; 0])).
Proof.
  unfold GetShellBound, boundStep, call, index. cbn. uv_compare. reflexivity.
Defined.

Lemma GetShellBound_first_uv_witness :
  ∃ s1 l s2 uv rest s3 u0 v0 more minU,
    UVExample.host _ (polyListComponentConversion_toUV (shell UVExample.pair)) [] =
      (s1, inr l) ∧
    UVExample.host _ (ls_fl l) s1 = (s2, inr (uv :: rest)) ∧
    UVExample.host _ (polyEditUV_q uv) s2 = (s3, inr (u0 :: v0 :: more)) ∧
    [1; 0] = [minU; v0] ∧ [0; 0] = [u0; v0].
Proof.
  apply (GetShellBound_first_uv UVExample.host UVExample.pair [] [] [1; 0] [0; 0]).
  apply pair_bound.
Defined.

(** ** Move to Origin *)

(** X15: [BackToOrigin] makes one edit: a move by minus the minimum that
    [GetShellBound] returned, that is by [-minU] in U and by minus the V of
    the first UV in V. *)
Theorem BackToOrigin_moves_by_first_V {St} (h : @UVHandler St) self s s' :
  uv_run h (BackToOrigin self) s = (s', inr tt) →
  ∃ s1 l s2 uv rest s3 u0 v0 more minU s4,
    h _ (polyListComponentConversion_toUV (shell self)) s = (s1, inr l) ∧
    h _ (ls_fl l) s1 = (s2, inr (uv :: rest)) ∧
    h _ (polyEditUV_q uv) s2 = (s3, inr (u0 :: v0 :: more)) ∧
    uv_run h (GetShellBound self) s = (s4, inr ([minU; v0], [u0; v0])) ∧
    filter (λ st, edits (uv_cmd st) = true) (uv_steps h (BackToOrigin self) s) =
      [mkUVStep (sent (polyEditUV_move (shell self) (- minU) (- v0))) s4 s' None].
Proof.
  unfold BackToOrigin, mbind, uvprog_bind. rewrite uv_steps_bind, uv_run_bind.
  destruct (uv_run h (GetShellBound self) s) as [s4 [e|[mn mx]]] eqn:E; [done|].
  destruct (GetShellBound_inv h _ _ _ _ E)
    as (s1 & l & s2 & uv & rest & s3 & u0 & v0 & more & minU & H1 & H2 & H3 & [= -> ->]).
  unfold call, index. cbn [lookup list_lookup uv_bind uv_run uv_steps].
  destruct (h _ (polyEditUV_move _ _ _) s4) as [s5 [e|[]]] eqn:Em; [done|].
  intros [= <-]. exists s1, l, s2, uv, rest, s3, u0, v0, more, minU, s4.
  repeat (split; [done|]).
  rewrite filter_app, filter_edits_queries by apply GetShellBound_queries.
  rewrite app_nil_l. by rewrite filter_cons_True, filter_nil by done.
Qed.

Lemma BackToOrigin_moves_by_first_V_witness :
  ∃ s1 l s2 uv rest s3 u0 v0 more minU s4,
    UVExample.host _ (polyListComponentConversion_toUV (shell UVExample.pair)) [] =
      (s1, inr l) ∧
    UVExample.host _ (ls_fl l) s1 = (s2, inr (uv :: rest)) ∧
    UVExample.host _ (polyEditUV_q uv) s2 = (s3, inr (u0 :: v0 :: more)) ∧
    uv_run UVExample.host (GetShellBound UVExample.pair) [] =
      (s4, inr ([minU; v0], [u0; v0])) ∧
    filter (λ st, edits (uv_cmd st) = true)
           (uv_steps UVExample.host (BackToOrigin UVExample.pair) []) =
      [mkUVStep (sent (polyEditUV_move (shell UVExample.pair) (- minU) (- v0))) s4
         [sent (polyEditUV_move (shell UVExample.pair) (- 1) (- 0))] None].
Proof.
  apply (BackToOrigin_moves_by_first_V UVExample.host UVExample.pair []).
  unfold BackToOrigin, mbind, uvprog_bind. rewrite uv_run_bind, pair_bound. reflexivity.
Defined.

(** ** Cut and Unfold *)

(** X16: [CutAndUnfoldShell] never returns and never unfolds, on any host: it
    reads [self.Shell], which the widget does not have, after the projection
    and the cut.  If the host accepts the three calls before it, the method
    raises AttributeError and the state is the one the cut left. *)
Theorem CutAndUnfoldShell_never_unfolds {St} (h : @UVHandler St) self s :
  (∃ e, (uv_run h (CutAndUnfoldShell self) s).2 = inl e) ∧
  Forall (λ st, unfolds (uv_cmd st) = false) (uv_steps h (CutAndUnfoldShell self) s) ∧
  (∀ s1 edges s2 s3,
     h _ ls_selected s = (s1, inr edges) →
     h _ (polyProjection_planar_c (shell self)) s1 = (s2, inr tt) →
     h _ (polyMapCut edges) s2 = (s3, inr tt) →
     uv_run h (CutAndUnfoldShell self) s = (s3, inl (AttributeError "Shell")) ∧
     map uv_cmd (uv_steps h (CutAndUnfoldShell self) s) =
       [sent ls_selected;
        sent (polyProjection_planar_c (shell self));
        sent (polyMapCut edges)]).
Proof.
  unfold CutAndUnfoldShell, call. uv_red.
  destruct (h _ ls_selected s) as [s1 [e|edges]] eqn:E1.
  { split; [by eexists|]. split; [by repeat constructor|]. by intros. }
  uv_red.
  destruct (h _ (polyProjection_planar_c _) s1) as [s2 [e|[]]] eqn:E2.
  { split; [by eexists|]. split; [by repeat constructor|].
    intros ???? [= <- <-]. rewrite E2. by intros. }
  uv_red.
  destruct (h _ (polyMapCut edges) s2) as [s3 [e|[]]] eqn:E3.
  { split; [by eexists|]. split; [by repeat constructor|].
    intros ???? [= <- <-]. rewrite E2. intros [= <-]. rewrite E3. by intros. }
  uv_red. split; [by eexists|]. split; [by repeat constructor|].
  intros ???? [= <- <-]. rewrite E2. intros [= <-]. rewrite E3. by intros [= <-].
Qed.

(** ** No UVs *)

(** X17: When the host finds no UV in the shell, [GetShellBound] raises
    IndexError at [uvs[0]], and so do [BackToOrigin], [MoveShell] and
    [FillShellToU1V1]; none of them makes a host call after the two
    queries. *)
Theorem no_uvs_IndexError {St} (h : @UVHandler St) self s s1 l s2 u v :
  h _ (polyListComponentConversion_toUV (shell self)) s = (s1, inr l) →
  h _ (ls_fl l) s1 = (s2, inr []) →
  uv_run h (GetShellBound self) s = (s2, inl (Builtin IndexError)) ∧
  ∀ p, p ∈ [BackToOrigin self; MoveShell self u v; FillShellToU1V1 self] →
    uv_run h p s = (s2, inl (Builtin IndexError)) ∧
    map uv_cmd (uv_steps h p s) =
      [sent (polyListComponentConversion_toUV (shell self)); sent (ls_fl l)].
Proof.
  intros H1 H2.
  assert (uv_run h (GetShellBound self) s = (s2, inl (Builtin IndexError)) ∧
          map uv_cmd (uv_steps h (GetShellBound self) s) =
            [sent (polyListComponentConversion_toUV (shell self)); sent (ls_fl l)])
    as [Hr Hs].
  { unfold GetShellBound, call, index. uv_red. rewrite H1. uv_red. rewrite H2. done. }
  assert (∀ B (f : _ → UVProg B),
    uv_run h (uv_bind (GetShellBound self) f) s = (s2, inl (Builtin IndexError)) ∧
    map uv_cmd (uv_steps h (uv_bind (GetShellBound self) f) s) =
      [sent (polyListComponentConversion_toUV (shell self)); sent (ls_fl l)])
    as Hb.
  { intros B f. by rewrite uv_run_bind, uv_steps_bind, Hr, app_nil_r. }
  assert (∀ B (f : _ → UVProg B),
    uv_run h (uv_bind (GetShellSize self) f) s = (s2, inl (Builtin IndexError)) ∧
    map uv_cmd (uv_steps h (uv_bind (GetShellSize self) f) s) =
      [sent (polyListComponentConversion_toUV (shell self)); sent (ls_fl l)])
    as Hz.
  { intros B f.
    by rewrite uv_run_bind, uv_steps_bind, GetShellSize_run, GetShellSize_steps,
      Hr, app_nil_r. }
  split; [exact Hr|]. intros p Hp.
  rewrite !elem_of_cons, elem_of_nil in Hp.
  destruct Hp as [->|[->|[->|[]]]]; [apply Hb|apply Hz|apply Hz].
Qed.

Lemma no_uvs_IndexError_witness :
  uv_run UVExample.host (GetShellBound init) [] = ([], inl (Builtin IndexError)) ∧
  ∀ p, p ∈ [BackToOrigin init; MoveShell init 1 0; FillShellToU1V1 init] →
    uv_run UVExample.host p [] = ([], inl (Builtin IndexError)) ∧
    map uv_cmd (uv_steps UVExample.host p []) =
      [sent (polyListComponentConversion_toUV (shell init)); sent (ls_fl [])].
Proof.
  apply (no_uvs_IndexError UVExample.host init [] [] [] [] 1 0); reflexivity.
Defined.

Lemma CutAndUnfoldShell_never_unfolds_witness :
  uv_run UVExample.host (CutAndUnfoldShell UVExample.pair) [] =
    ([sent (polyMapCut ["e[3]"]);
      sent (polyProjection_planar_c (shell UVExample.pair))],
     inl (AttributeError "Shell")) ∧
  map uv_cmd (uv_steps UVExample.host (CutAndUnfoldShell UVExample.pair) []) =
    [sent ls_selected; sent (polyProjection_planar_c (shell UVExample.pair));
     sent (polyMapCut ["e[3]"])].
Proof.
  apply (proj2 (proj2 (CutAndUnfoldShell_never_unfolds UVExample.host UVExample.pair []))
           [] ["e[3]"] [sent (polyProjection_planar_c (shell UVExample.pair))]);
    reflexivity.
Defined.

(** ** The bounds on a host that answers from a table *)

Section Recorder.
Variables (sel : list string) (coords : string → option (list R)).

Lemma for_each_run_app {St} (h : @UVHandler St) {A B} (l1 l2 : list A)
    (body : A → B → UVProg B) b s :
  uv_run h (for_each (l1 ++ l2) body b) s =
  match uv_run h (for_each l1 body b) s with
  | (s', inr b') => uv_run h (for_each l2 body b') s'
  | (s', inl e) => (s', inl e)
  end.
Proof.
  revert b s. induction l1 as [|x l1 IH]; intros b s; [done|].
  cbn [app for_each]. unfold mbind, uvprog_bind. rewrite !uv_run_bind.
  destruct (uv_run h (body x b) s) as [s1 [e|b1]]; [done|apply IH].
Qed.

Lemma recorder_boundStep uv a b minU maxU minV maxV log :
  coords uv = Some [a; b] →
  uv_run (recorder sel coords) (boundStep uv (minU, maxU, minV, maxV)) log =
  (log, inr (let m := if Rlt_dec a minU then a else minU in
             let m := if Rgt_dec a maxU then a else m in
             let m := if Rlt_dec b minV then b else m in
             if Rgt_dec b maxV then b else m, maxU, minV, maxV)).
Proof. intros Hc. unfold boundStep, call, index. cbn. by rewrite Hc. Qed.

Lemma recorder_loop_total l minU maxU minV maxV log :
  Forall (λ y, ∃ a b, coords y = Some [a; b]) l →
  ∃ m, uv_run (recorder sel coords) (for_each l boundStep (minU, maxU, minV, maxV)) log =
       (log, inr (m, maxU, minV, maxV)).
Proof.
  intros Hl. revert minU. induction Hl as [|y l (a & b & Hy) _ IH]; intros minU.
  - by exists minU.
  - cbn [for_each]. unfold mbind, uvprog_bind.
    rewrite uv_run_bind, (recorder_boundStep _ _ _ _ _ _ _ _ Hy). apply IH.
Qed.

(** On a row (every UV has the V of the first one) with the first UV at the
    right end, the loop does compute the least U. *)
Lemma recorder_loop_row l u0 v0 minU log :
  minU <= u0 →
  Forall (λ y, ∃ a, coords y = Some [a; v0] ∧ a <= u0) l →
  ∃ m, uv_run (recorder sel coords) (for_each l boundStep (minU, u0, v0, v0)) log =
         (log, inr (m, u0, v0, v0)) ∧
       m <= minU ∧
       (∀ y a b, y ∈ l → coords y = Some [a; b] → m <= a) ∧
       (m = minU ∨ ∃ y b, y ∈ l ∧ coords y = Some [m; b]).
Proof.
  intros Hm Hl. revert minU Hm.
  induction Hl as [|y l (a & Hy & Ha) _ IH]; intros minU Hm.
  - exists minU. split; [done|]. split; [lra|]. split; [|by left].
    intros y a b Hy. by apply elem_of_nil in Hy.
  - cbn [for_each]. unfold mbind, uvprog_bind.
    rewrite uv_run_bind, (recorder_boundStep _ _ _ _ _ _ _ _ Hy). cbv zeta.
    destruct (Rgt_dec v0 v0) as [?|_]; [lra|].
    destruct (Rlt_dec v0 v0) as [?|_]; [lra|].
    destruct (Rgt_dec a u0) as [?|_]; [lra|].
    destruct (Rlt_dec a minU) as [Hlt|Hge].
    + destruct (IH a Ha) as (m & Hrun & Hle & Hall & Hex).
      exists m. split; [done|]. split; [lra|]. split.
      * intros z a' b' Hz Hc. apply elem_of_cons in Hz as [->|Hz].
        -- rewrite Hy in Hc. injection Hc as <- <-. done.
        -- by eapply Hall.
      * right. destruct Hex as [->|(z & b & Hz & Hc)].
        -- exists y, v0. split; [left|done].
        -- exists z, b. split; [by right|done].
    + destruct (IH minU Hm) as (m & Hrun & Hle & Hall & Hex).
      exists m. split; [done|]. split; [lra|]. split.
      * intros z a' b' Hz Hc. apply elem_of_cons in Hz as [->|Hz].
        -- rewrite Hy in Hc. injection Hc as <- <-. lra.
        -- by eapply Hall.
      * destruct Hex as [->|(z & b & Hz & Hc)]; [by left|].
        right. exists z, b. split; [by right|done].
Qed.

Lemma recorder_GetShellBound self uv0 l u0 v0 log :
  shell self = uv0 :: l → coords uv0 = Some [u0; v0] →
  uv_run (recorder sel coords) (GetShellBound self) log =
  match uv_run (recorder sel coords) (for_each (uv0 :: l) boundStep (u0, u0, v0, v0)) log with
  | (s', inr (minU, maxU, minV, maxV)) => (s', inr ([minU; minV], [maxU; maxV]))
  | (s', inl e) => (s', inl e)
  end.
Proof.
  intros Hs H0. unfold GetShellBound, call, index. uv_red. cbn [recorder].
  rewrite Hs. uv_red. cbn [recorder]. rewrite H0. uv_red.
  rewrite uv_run_bind.
  by destruct (uv_run (recorder sel coords) (for_each _ _ _) log) as [s' [e|[[[? ?] ?] ?]]].
Qed.
End Recorder.

(** X18: When every UV of the shell has the V of the first one and none lies to
    the right of the first one, the tests that assign [minU] by mistake
    never fire: on a host that answers from a table, [GetShellBound] returns
    the least U of the shell as the U of the minimum. *)
Theorem GetShellBound_row_least_U sel coords self uv0 l u0 v0 log :
  shell self = uv0 :: l → coords uv0 = Some [u0; v0] →
  Forall (λ y, ∃ a, coords y = Some [a; v0] ∧ a <= u0) l →
  ∃ minU,
    uv_run (recorder sel coords) (GetShellBound self) log =
      (log, inr ([minU; v0], [u0; v0])) ∧
    (∀ y a b, y ∈ shell self → coords y = Some [a; b] → minU <= a) ∧
    (∃ y b, y ∈ shell self ∧ coords y = Some [minU; b]).
Proof.
  intros Hs H0 Hl.
  assert (Forall (λ y, ∃ a, coords y = Some [a; v0] ∧ a <= u0) (uv0 :: l)) as Hall.
  { constructor; [|done]. exists u0. split; [done|lra]. }
  destruct (recorder_loop_row sel coords (uv0 :: l) u0 v0 u0 log (Rle_refl _) Hall)
    as (m & Hrun & Hle & Hmin & Hex).
  exists m. rewrite (recorder_GetShellBound _ _ _ _ _ _ _ _ Hs H0), Hrun, Hs.
  split; [done|]. split; [done|].
  destruct Hex as [->|Hex]; [|done]. exists uv0, v0. split; [left|done].
Qed.

Lemma GetShellBound_row_least_U_witness :
  ∃ minU,
    uv_run (recorder ["e[3]"] UVExample.coords) (GetShellBound UVExample.swapped) [] =
      ([], inr ([minU; 0], [1; 0])) ∧
    (∀ y a b, y ∈ shell UVExample.swapped → UVExample.coords y = Some [a; b] →
              minU <= a) ∧
    (∃ y b, y ∈ shell UVExample.swapped ∧ UVExample.coords y = Some [minU; b]).
Proof.
  apply (GetShellBound_row_least_U ["e[3]"] UVExample.coords UVExample.swapped
           "map[1]" ["map[0]"] 1 0 []).
  - reflexivity.
  - reflexivity.
  - constructor; [|constructor]. exists 0. split; [reflexivity|lra].
Defined.

(** X19: The minimum can exceed the maximum: when the last UV of the shell has
    the V of the first UV and lies to its right, the test on [maxU] stores
    its U in [minU], and [GetShellBound] returns it as the U of the minimum,
    above the U of the maximum (the first UV); the width is then negative. *)
Theorem GetShellBound_min_above_max sel coords self uv0 l x u0 v0 u log :
  shell self = uv0 :: l ++ [x] →
  coords uv0 = Some [u0; v0] → coords x = Some [u; v0] → u0 < u →
  Forall (λ y, ∃ a b, coords y = Some [a; b]) l →
  uv_run (recorder sel coords) (GetShellBound self) log =
    (log, inr ([u; v0], [u0; v0])) ∧
  uv_run (recorder sel coords) (GetShellSize self) log = (log, inr (u0 - u, v0 - v0)) ∧
  u0 - u < 0.
Proof.
  intros Hs H0 Hx Hu Hl.
  assert (uv_run (recorder sel coords) (GetShellBound self) log =
          (log, inr ([u; v0], [u0; v0]))) as Hb.
  { rewrite (recorder_GetShellBound _ _ _ _ _ _ _ _ Hs H0).
    rewrite app_comm_cons, for_each_run_app.
    destruct (recorder_loop_total sel coords (uv0 :: l) u0 u0 v0 v0 log) as [m ->].
    { constructor; [by exists u0, v0|done]. }
    cbn [for_each]. unfold mbind, uvprog_bind.
    rewrite uv_run_bind, (recorder_boundStep _ _ _ _ _ _ _ _ _ _ Hx). cbv zeta.
    destruct (Rgt_dec v0 v0) as [?|_]; [lra|].
    destruct (Rlt_dec v0 v0) as [?|_]; [lra|].
    destruct (Rgt_dec u u0) as [_|?]; [|lra]. reflexivity. }
  split; [exact Hb|]. split; [|lra].
  rewrite GetShellSize_run, Hb. reflexivity.
Qed.

Lemma GetShellBound_min_above_max_witness :
  uv_run (recorder ["e[3]"] UVExample.coords) (GetShellBound UVExample.pair) [] =
    ([], inr ([1; 0], [0; 0])) ∧
  uv_run (recorder ["e[3]"] UVExample.coords) (GetShellSize UVExample.pair) [] =
    ([], inr (0 - 1, 0 - 0)) ∧
  0 - 1 < 0.
Proof.
  apply (GetShellBound_min_above_max ["e[3]"] UVExample.coords UVExample.pair
           "map[0]" [] "map[1]" 0 0 1 []).
  - reflexivity.
  - reflexivity.
  - reflexivity.
  - lra.
  - constructor.
Defined.
